(** * PageRank: transition model, sampling estimator, iterative estimator

    A shallow embedding of [pagerank.py].  Python dictionaries are finite
    maps ([gmap string _]), Python sets of page names are finite sets
    ([gset string]), Python integers are [Z], and Python floats are
    idealised as exact rationals ([Qc], canonical fractions, so that equality
    of ranks is plain equality).  Run-time exceptions are explicit: every
    operation that can raise in Python returns a [result].  [main] and
    [crawl] do input and output only and are not embedded; [crawl] is where
    the two invariants on a corpus come from. *)

From Stdlib Require Import ZArith QArith Qcanon Qcabs.
From stdpp Require Import base option list gmap sets strings.

Local Open Scope Qc_scope.

(** ** Exceptions and the error monad *)

(** Python's built-in exceptions that the operations below can raise, and
    [Custom name] for an exception class a program defines itself.
    [pagerank.py] defines and raises none. *)
Inductive exn : Type :=
  | KeyError
  | IndexError
  | ZeroDivisionError
  | ValueError
  | Custom (name : string).

Inductive result (A : Type) : Type :=
  | Ok (a : A)
  | Raise (e : exn).
Arguments Ok {A} a.
Arguments Raise {A} e.

Global Instance result_ret : MRet result := λ A a, Ok a.
Global Instance result_bind : MBind result := λ A B f m,
  match m with
  | Ok a => f a
  | Raise e => Raise e
  end.

(** [for x in l: acc = f acc x], stopping at the first exception. *)
Fixpoint foldlM {A B : Type} (f : B → A → result B) (b : B) (l : list A)
  : result B :=
  match l with
  | [] => Ok b
  | x :: l' => b' ← f b x; foldlM f b' l'
  end.

(** ** Numbers *)

(** Integers enter rational arithmetic through stdpp's [Qc_of_Z]. *)
Definition Qc_of_nat (n : nat) : Qc := Qc_of_Z (Z.of_nat n).

(** Python's [a / b] (true division). *)
Definition truediv (a b : Qc) : result Qc :=
  if decide (b = 0) then Raise ZeroDivisionError else Ok (a / b).

(** ** Dictionaries *)

(** [m[k]] *)
Definition getitem {V : Type} (m : gmap string V) (k : string) : result V :=
  match m !! k with
  | Some v => Ok v
  | None => Raise KeyError
  end.

(** The keys in the order in which [for p in m] yields them.  Python yields
    them in insertion order, which a [gmap] does not record; [map_to_list]
    fixes one order.  In exact arithmetic no result below depends on it. *)
Definition keys {V : Type} (m : gmap string V) : list string :=
  (map_to_list m).*1.

(** [list(m.values())], in the same order as [keys]. *)
Definition values {V : Type} (m : gmap string V) : list V :=
  (map_to_list m).*2.

(** [len(m)] and [len(s)], as numbers that can be divided by. *)
Definition len {V : Type} (m : gmap string V) : Qc := Qc_of_nat (size m).
Definition len_set (s : gset string) : Qc := Qc_of_nat (size s).

(** [{p: f(p) for p in ks}] *)
Definition dict_comp {V : Type} (f : string → result V) (ks : list string)
  : result (gmap string V) :=
  foldlM (λ d p, v ← f p; Ok (<[p := v]> d)) ∅ ks.

(** ** The transition model *)

Definition transition_model (corpus : gmap string (gset string))
    (page : string) (damping_factor : Qc) : result (gmap string Qc) :=
  links ← getitem corpus page;
  if decide (size links = 0%nat) then
    dict_comp (λ p, truediv 1 (len corpus)) (keys corpus)
  else
    let d : gmap string Qc := ∅ in
    links ← getitem corpus page;
    rand_link_page ← truediv damping_factor (len_set links);
    rand_page_corpus ← truediv (1 - damping_factor) (len corpus);
    foldlM (λ d p,
        links ← getitem corpus page;
        Ok (<[p := if decide (p ∈ links)
                   then rand_page_corpus + rand_link_page
                   else rand_page_corpus]> d))
      d (keys corpus).

(** ** The random source

    [random.choice] and [random.choices] belong to Python's standard library.
    They are modelled after their CPython definitions, with the generator's
    raw outputs supplied by an oracle: an arbitrary infinite stream of
    natural numbers.  [random()] is a 53-bit fraction in [0,1), and the
    uniform index below [n] is the raw output reduced modulo [n]. *)

Definition rng : Type := nat → N.

Definition rng_next (g : rng) : N * rng := (g 0%nat, λ k, g (S k)).

Definition random (g : rng) : Qc * rng :=
  let '(r, g) := rng_next g in
  (Qc_of_Z (Z.of_N (r mod 2 ^ 53)) / Qc_of_Z (2 ^ 53), g).

Definition randbelow (g : rng) (n : nat) : nat * rng :=
  let '(r, g) := rng_next g in
  (N.to_nat (r mod N.of_nat n), g).

(** [seq[i]] on a list, for a non-negative index. *)
Definition list_getitem {A : Type} (l : list A) (i : nat) : result A :=
  match l !! i with
  | Some x => Ok x
  | None => Raise IndexError
  end.

(** [random.choice(seq)] *)
Definition choice {A : Type} (g : rng) (seq : list A) : result (A * rng) :=
  if decide (length seq = 0%nat) then Raise IndexError
  else
    let '(i, g) := randbelow g (length seq) in
    x ← list_getitem seq i;
    Ok (x, g).

(** [itertools.accumulate(weights)] *)
Fixpoint accumulate_from (total : Qc) (weights : list Qc) : list Qc :=
  match weights with
  | [] => []
  | w :: weights' => (total + w) :: accumulate_from (total + w) weights'
  end.

Definition accumulate (weights : list Qc) : list Qc :=
  match weights with
  | [] => []
  | w :: weights' => w :: accumulate_from w weights'
  end.

(** [bisect.bisect_right(a, x, lo, hi)]: the binary search
    [while lo < hi: mid = (lo + hi) // 2; ...], which needs at most
    [hi - lo] rounds. *)
Fixpoint bisect_loop (rounds : nat) (a : list Qc) (x : Qc) (lo hi : nat)
  : result nat :=
  match rounds with
  | O => Ok lo
  | S rounds' =>
      if decide (lo < hi)%nat then
        let mid := ((lo + hi) `div` 2)%nat in
        a_mid ← list_getitem a mid;
        if decide (x < a_mid)
        then bisect_loop rounds' a x lo mid
        else bisect_loop rounds' a x (mid + 1)%nat hi
      else Ok lo
  end.

Definition bisect (a : list Qc) (x : Qc) (lo hi : nat) : result nat :=
  bisect_loop (hi - lo) a x lo hi.

(** [random.choices(population, weights=weights, k=1)[0]] *)
Definition choices {A : Type} (g : rng) (population : list A)
    (weights : list Qc) : result (A * rng) :=
  let n := length population in
  let cum_weights := accumulate weights in
  if decide (length cum_weights ≠ n) then Raise ValueError
  else
    total ← match last cum_weights with
            | Some t => Ok t
            | None => Raise IndexError
            end;
    if decide (total <= 0) then Raise ValueError
    else
      let hi := (n - 1)%nat in
      let '(u, g) := random g in
      i ← bisect cum_weights (u * total) 0 hi;
      x ← list_getitem population i;
      Ok (x, g).

(** ** The sampling estimator *)

(** [d[k] += 1] *)
Definition incr (d : gmap string Z) (k : string) : result (gmap string Z) :=
  v ← getitem d k;
  Ok (<[k := (v + 1)%Z]> d).

(** One round of the sampling loop (lines 103-121), on the loop's variables
    [d], [cur_sample] and the state of the random source. *)
Definition sample_step (corpus : gmap string (gset string))
    (damping_factor : Qc) (st : gmap string Z * string * rng)
  : result (gmap string Z * string * rng) :=
  let '(d, cur_sample, g) := st in
  next_sample_dict ← transition_model corpus cur_sample damping_factor;
  let next_sample_population := keys next_sample_dict in
  let next_sample_weight := values next_sample_dict in
  '(next_sample, g) ← choices g next_sample_population next_sample_weight;
  d ← incr d next_sample;
  let cur_sample := next_sample in
  Ok (d, cur_sample, g).

(** Lines 96-121: the visit counters after all samples are drawn. *)
Definition sample_counts (g : rng) (corpus : gmap string (gset string))
    (damping_factor : Qc) (n : Z) : result (gmap string Z) :=
  d ← dict_comp (λ p, Ok 0%Z) (keys corpus);
  '(cur_sample, g) ← choice g (keys corpus);
  d ← incr d cur_sample;
  '(d, _, _) ← foldlM (λ st _, sample_step corpus damping_factor st)
                 (d, cur_sample, g) (seq 0 (Z.to_nat (n - 1)));
  Ok d.

Definition sample_pagerank (g : rng) (corpus : gmap string (gset string))
    (damping_factor : Qc) (n : Z) : result (gmap string Qc) :=
  d ← sample_counts g corpus damping_factor n;
  dict_comp (λ p, c ← getitem d p; truediv (Qc_of_Z c) (Qc_of_Z n))
    (keys corpus).

(** ** The iterative estimator *)

Definition threshold : Qc := Q2Qc (1 # 1000).

(** The variables of the [while] loop. *)
Record iter_state : Type := IterState {
  d : gmap string Qc;
  new_d : gmap string Qc;
  pr_value_change : Qc
}.

(** Lines 157-167: what one page [p2] does to [summation], for a fixed
    [p1]. *)
Definition summation_step (corpus : gmap string (gset string))
    (d : gmap string Qc) (p1 : string) (summation : Qc) (p2 : string)
  : result Qc :=
  links ← getitem corpus p2;
  summation ←
    (if decide (p1 ∈ links) then
       d_p2 ← getitem d p2;
       links ← getitem corpus p2;
       q ← truediv d_p2 (len_set links);
       Ok (summation + q)
     else Ok summation);
  links ← getitem corpus p2;
  if decide (size links = 0%nat) then
    d_p2 ← getitem d p2;
    q ← truediv d_p2 (len corpus);
    Ok (summation + q)
  else Ok summation.

(** Lines 152-167: the inner loop over [p2]. *)
Definition summation_of (corpus : gmap string (gset string))
    (d : gmap string Qc) (p1 : string) : result Qc :=
  foldlM (summation_step corpus d p1) 0 (keys corpus).

(** Lines 149-170: one sweep, writing every new rank into [new_d]. *)
Definition sweep (corpus : gmap string (gset string)) (damping_factor : Qc)
    (d new_d : gmap string Qc) : result (gmap string Qc) :=
  foldlM (λ new_d p1,
      summation ← summation_of corpus d p1;
      base ← truediv (1 - damping_factor) (len corpus);
      Ok (<[p1 := base + damping_factor * summation]> new_d))
    new_d (keys corpus).

(** Lines 173-183: the comparison scan with its early [break]. *)
Fixpoint scan (d new_d : gmap string Qc) (pr_value_change : Qc)
    (pages : list string) : result Qc :=
  match pages with
  | [] => Ok pr_value_change
  | page :: pages' =>
      d_page ← getitem d page;
      new_d_page ← getitem new_d page;
      let rank_value_change := Qcabs (d_page - new_d_page) in
      let pr_value_change := rank_value_change in
      if decide (threshold < pr_value_change) then Ok pr_value_change
      else scan d new_d pr_value_change pages'
  end.

(** Lines 149-186: the body of the [while] loop. *)
Definition loop_body (corpus : gmap string (gset string))
    (damping_factor : Qc) (st : iter_state) : result iter_state :=
  new_d ← sweep corpus damping_factor (d st) (new_d st);
  pr_value_change ← scan (d st) new_d (pr_value_change st) (keys corpus);
  Ok {| d := new_d; new_d := new_d; pr_value_change := pr_value_change |}.

(** Line 146: the loop condition. *)
Definition loop_continues (st : iter_state) : bool :=
  bool_decide (threshold < pr_value_change st).

(** The [while] loop.  [fuel] bounds the number of times the condition is
    evaluated; [None] means the bound was reached with the loop still
    running. *)
Fixpoint while_loop (fuel : nat) (corpus : gmap string (gset string))
    (damping_factor : Qc) (st : iter_state)
  : option (result (gmap string Qc)) :=
  match fuel with
  | O => None
  | S fuel' =>
      if loop_continues st then
        match loop_body corpus damping_factor st with
        | Ok st' => while_loop fuel' corpus damping_factor st'
        | Raise e => Some (Raise e)
        end
      else Some (Ok (d st))
  end.

(** Lines 137-143: the state in which the loop is entered. *)
Definition initial_state (corpus : gmap string (gset string))
  : result iter_state :=
  d ← dict_comp (λ p, truediv 1 (len corpus)) (keys corpus);
  new_d ← dict_comp (λ p, Ok 0) (keys corpus);
  Ok {| d := d; new_d := new_d; pr_value_change := Q2Qc (2 # 1000) |}.

Definition iterate_pagerank (fuel : nat) (corpus : gmap string (gset string))
    (damping_factor : Qc) : option (result (gmap string Qc)) :=
  match initial_state corpus with
  | Ok st => while_loop fuel corpus damping_factor st
  | Raise e => Some (Raise e)
  end.

(** ** Sums of ranks *)

Definition sum_list (l : list Qc) : Qc := foldr Qcplus 0 l.

(** [sum(m.values())] *)
Definition sum_values (m : gmap string Qc) : Qc := sum_list (values m).

(** The sum of [f p] over the pages [p] of [ks]. *)
Definition sum_over (ks : list string) (f : string → Qc) : Qc :=
  sum_list (f <$> ks).

(** The same for integer counters. *)
Definition sum_counts (m : gmap string Z) : Z := foldr Z.add 0%Z (values m).

(** ** The data model's invariants on a graph *)

(** Every linked-to page is itself a page of the corpus. *)
Definition links_closed (corpus : gmap string (gset string)) : Prop :=
  map_Forall (λ _ links, links ⊆ dom corpus) corpus.

(** No page links to itself.  ([crawl] establishes both invariants; the
    estimators never rely on this one.) *)
Definition no_self_links (corpus : gmap string (gset string)) : Prop :=
  map_Forall (λ p links, p ∉ links) corpus.

(** ** Sample inputs *)

Definition sample_rng : rng := λ k, N.of_nat (7 * k * k + 1).

Definition two_cycle : gmap string (gset string) :=
  <["A" := {["B"]}]> (<["B" := {["A"]}]> ∅).
Definition a_to_b : gmap string (gset string) :=
  <["A" := {["B"]}]> (<["B" := ∅]> ∅).
Definition lone : gmap string (gset string) := <["A" := ∅]> ∅.
Definition three_cycle : gmap string (gset string) :=
  <["A" := {["B"]}]> (<["B" := {["C"]}]> (<["C" := {["A"]}]> ∅)).
Definition d85 : Qc := Q2Qc (85 # 100).

(** ** The recurrence of the iterative estimator, as the specification
    words it *)

(** The rank a vector gives to a page, and the out-links of a page. *)
Definition rank (ranks : gmap string Qc) (p : string) : Qc :=
  default 0 (ranks !! p).
Definition out_links (corpus : gmap string (gset string)) (q : string)
  : gset string :=
  default ∅ (corpus !! q).

(** PR(p) = (1-d)/N + d * (sum over the pages q that link to p of
    PR(q)/L(q), plus PR(q)/N for every page q without out-links). *)
Definition recurrence (corpus : gmap string (gset string))
    (damping_factor : Qc) (old : gmap string Qc) (p : string) : Qc :=
  (1 - damping_factor) / len corpus
  + damping_factor *
      (sum_over (filter (λ q, p ∈ out_links corpus q) (keys corpus))
         (λ q, rank old q / len_set (out_links corpus q))
       + sum_over (filter (λ q, out_links corpus q = ∅) (keys corpus))
           (λ q, rank old q / len corpus)).

(** ** The states the loop of the iterative estimator passes through *)

Inductive reachable (corpus : gmap string (gset string))
    (damping_factor : Qc) : iter_state → Prop :=
  | reachable_initial st :
      initial_state corpus = Ok st →
      reachable corpus damping_factor st
  | reachable_step st st' :
      reachable corpus damping_factor st →
      loop_continues st = true →
      loop_body corpus damping_factor st = Ok st' →
      reachable corpus damping_factor st'.

(** ** Notions used in the statements and proofs *)

(** The probability line 80 assigns to [p]. *)
Definition linked_probability (corpus : gmap string (gset string))
    (links : gset string) (damping_factor : Qc) (p : string) : Qc :=
  if decide (p ∈ links)
  then (1 - damping_factor) / len corpus + damping_factor / len_set links
  else (1 - damping_factor) / len corpus.

(** What page [p2] adds to the summation for [p1] (lines 158-167). *)
Definition contribution (corpus : gmap string (gset string))
    (d : gmap string Qc) (p1 p2 : string) : Qc :=
  (if decide (p1 ∈ out_links corpus p2)
   then rank d p2 / len_set (out_links corpus p2) else 0)
  + (if decide (out_links corpus p2 = ∅) then rank d p2 / len corpus else 0).

(** The visit counter of a page. *)
Definition count (counts : gmap string Z) (p : string) : Z :=
  default 0%Z (counts !! p).

(** What holds of the loop variables after [k] samples have been counted. *)
Definition counted (corpus : gmap string (gset string)) (k : Z)
    (st : gmap string Z * string * rng) : Prop :=
  dom st.1.1 = dom corpus ∧ st.1.2 ∈ dom corpus ∧ sum_counts st.1.1 = k.

(** A computation that raises, if anything, one of Python's built-in
    exceptions. *)
Definition builtin_only {A : Type} (r : result A) : Prop :=
  ∀ name, r ≠ Raise (Custom name).

(** ** Building the corpus

    [crawl] reads a directory.  The directory is given as what it holds: the
    names [os.listdir] yields, in that order, each with the text [f.read()]
    returns for it (every entry is taken to be a readable text file).  The
    regular-expression search [re.findall(r"<a ... href=...", contents)] is
    the argument [findall]: the links it finds in a text, in order. *)

(** [s.endswith(suffix)] *)
Definition endswith (s suffix : string) : bool :=
  let n := String.length s in
  let m := String.length suffix in
  (m <=? n)%nat && String.eqb (String.substring (n - m) m s) suffix.

(** Lines 33-39: what one directory entry does to [pages]. *)
Definition crawl_extract (findall : string → list string)
    (pages : gmap string (gset string)) (entry : string * string)
  : gmap string (gset string) :=
  let '(filename, contents) := entry in
  if negb (endswith filename ".html") then pages
  else
    let links := findall contents in
    <[filename := list_to_set links ∖ {[filename]}]> pages.

(** Lines 42-46: what one key does to [pages] in the second loop. *)
Definition crawl_restrict (pages : gmap string (gset string))
    (filename : string) : result (gmap string (gset string)) :=
  links ← getitem pages filename;
  Ok (<[filename := filter (λ link, link ∈ dom pages) links]> pages).

Definition crawl (findall : string → list string)
    (directory : list (string * string))
  : result (gmap string (gset string)) :=
  let pages := foldl (crawl_extract findall) ∅ directory in
  pages ← foldlM crawl_restrict pages (keys pages);
  Ok pages.

(** ** The two estimator runs of [main]

    Given its one argument, [main] builds the corpus, runs the sampling
    estimator and then the iterative estimator, and prints each result; the
    check of the argument count and the printing are not embedded.
    [main_ranks] is the pair of rank dictionaries it prints. *)

Definition DAMPING : Qc := Q2Qc (85 # 100).
Definition SAMPLES : Z := 10000.

Definition main_ranks (findall : string → list string) (g : rng)
    (fuel : nat) (directory : list (string * string))
  : option (result (gmap string Qc * gmap string Qc)) :=
  match crawl findall directory with
  | Raise e => Some (Raise e)
  | Ok corpus =>
      match sample_pagerank g corpus DAMPING SAMPLES with
      | Raise e => Some (Raise e)
      | Ok sampled =>
          match iterate_pagerank fuel corpus DAMPING with
          | None => None
          | Some (Raise e) => Some (Raise e)
          | Some (Ok iterated) => Some (Ok (sampled, iterated))
          end
      end
  end.

(** A directory for trial runs, with a link search that takes a file's text
    to be a blank-separated list of links. *)
Fixpoint words_from (word : string) (s : string) : list string :=
  match s with
  | EmptyString => if decide (word = "") then [] else [word]
  | String c s' =>
      if decide (c = Ascii.ascii_of_nat 32)
      then (if decide (word = "") then [] else [word]) ++ words_from "" s'
      else words_from (word +:+ String c EmptyString) s'
  end.
Definition words (s : string) : list string := words_from "" s.

Definition sample_directory : list (string * string) :=
  [("1.html", "2.html 3.html 1.html gone.html");
   ("2.html", "3.html");
   ("notes.txt", "1.html");
   ("3.html", "2.html")].

(** The share of the rank of [q] that the recurrence hands to [p]. *)
Definition weight (corpus : gmap string (gset string)) (p q : string) : Qc :=
  (if decide (p ∈ out_links corpus q)
   then 1 / len_set (out_links corpus q) else 0)
  + (if decide (out_links corpus q = ∅) then 1 / len corpus else 0).


(** * Properties *)

(** ** The error monad and loops *)

Lemma foldlM_pure {A B : Type} (f : B → A → result B) (g : B → A → B)
    (l : list A) (b : B) :
  (∀ b x, x ∈ l → f b x = Ok (g b x)) →
  foldlM f b l = Ok (foldl g b l).
Proof.
  revert b. induction l as [|x l IH]; intros b Hf; simpl; [done|].
  rewrite Hf by left. simpl. apply IH.
  intros b' y Hy. apply Hf. by right.
Qed.

(** ** Dictionaries *)

Lemma getitem_Some {V : Type} (m : gmap string V) (k : string) (v : V) :
  m !! k = Some v → getitem m k = Ok v.
Proof. unfold getitem. by intros ->. Qed.

Lemma getitem_None_KeyError {V : Type} (m : gmap string V) (k : string) :
  m !! k = None → getitem m k = Raise KeyError.
Proof. unfold getitem. by intros ->. Qed.

Lemma elem_of_keys {V : Type} (m : gmap string V) (p : string) :
  p ∈ keys m ↔ is_Some (m !! p).
Proof.
  unfold keys. rewrite list_elem_of_fmap. split.
  - intros ([q v] & -> & Hin). apply elem_of_map_to_list in Hin. by eexists.
  - intros [v Hv]. exists (p, v). split; [done|]. by apply elem_of_map_to_list.
Qed.

Lemma elem_of_keys_dom {V : Type} (m : gmap string V) (p : string) :
  p ∈ keys m ↔ p ∈ dom m.
Proof. by rewrite elem_of_keys, elem_of_dom. Qed.

Lemma NoDup_keys {V : Type} (m : gmap string V) : NoDup (keys m).
Proof. apply NoDup_fst_map_to_list. Qed.

Lemma length_keys {V : Type} (m : gmap string V) : length (keys m) = size m.
Proof. unfold keys. by rewrite length_fmap, length_map_to_list. Qed.

Lemma length_values {V : Type} (m : gmap string V) :
  length (values m) = size m.
Proof. unfold values. by rewrite length_fmap, length_map_to_list. Qed.

Lemma keys_empty {V : Type} : keys (∅ : gmap string V) = [].
Proof. unfold keys. by rewrite map_to_list_empty. Qed.

Lemma keys_nonempty {V : Type} (m : gmap string V) : m ≠ ∅ → keys m ≠ [].
Proof.
  intros Hm Hk. apply Hm, map_size_empty_iff.
  by rewrite <- length_keys, Hk.
Qed.

Lemma keys_Permutation {V W : Type} (m : gmap string V) (m' : gmap string W) :
  dom m = dom m' → keys m ≡ₚ keys m'.
Proof.
  intros Hdom. apply NoDup_Permutation; [apply NoDup_keys..|].
  intros p. by rewrite !elem_of_keys_dom, Hdom.
Qed.

Lemma values_keys {V : Type} (m : gmap string V) :
  Some <$> values m = (λ p, m !! p) <$> keys m.
Proof.
  unfold values, keys. rewrite <- !list_fmap_compose.
  apply list_fmap_ext. intros i [p v] Hi. simpl.
  symmetry. apply elem_of_map_to_list. by eapply list_elem_of_lookup_2.
Qed.

(** A dictionary comprehension whose value expression raises nothing yields
    exactly the pages it ran over, each with its value. *)
Lemma lookup_foldl_insert {V : Type} (h : string → V) (ks : list string)
    (m : gmap string V) (q : string) :
  foldl (λ d p, <[p := h p]> d) m ks !! q =
    if decide (q ∈ ks) then Some (h q) else m !! q.
Proof.
  revert m. induction ks as [|p ks IH]; intros m.
  - case_decide as Hin; [by apply not_elem_of_nil in Hin|done].
  - change (foldl (λ d p, <[p := h p]> d) (<[p := h p]> m) ks !! q =
            if decide (q ∈ p :: ks) then Some (h q) else m !! q).
    rewrite IH. clear IH.
    destruct (decide (q ∈ ks)) as [Hin|Hin].
    + rewrite decide_True; [done|]. by right.
    + destruct (decide (q = p)) as [->|Hne].
      * rewrite decide_True; [|by left]. by rewrite lookup_insert_eq.
      * rewrite decide_False; [by rewrite lookup_insert_ne|].
        rewrite elem_of_cons. by intros [?|?].
Qed.

Lemma dict_comp_pure {V : Type} (f : string → result V) (h : string → V)
    (ks : list string) :
  (∀ p, p ∈ ks → f p = Ok (h p)) →
  ∃ d, dict_comp f ks = Ok d ∧
       ∀ q, d !! q = if decide (q ∈ ks) then Some (h q) else None.
Proof.
  intros Hf. exists (foldl (λ d p, <[p := h p]> d) ∅ ks). split.
  - unfold dict_comp. apply foldlM_pure. intros b p Hp. by rewrite Hf.
  - intros q. by rewrite lookup_foldl_insert, lookup_empty.
Qed.

(** A dictionary defined on exactly the keys of [corpus]. *)
Lemma dom_of_lookups {V W : Type} (m : gmap string V) (d : gmap string W)
    (h : string → W) :
  (∀ q, d !! q = if decide (q ∈ keys m) then Some (h q) else None) →
  dom d = dom m.
Proof.
  intros Hd. apply set_eq. intros q.
  rewrite elem_of_dom, Hd, <- (elem_of_keys_dom m).
  case_decide; [by split; [|eexists]|].
  split; [by intros [? ?]|done].
Qed.

(** ** Numbers *)

Lemma Qc_of_nat_0 : Qc_of_nat 0 = 0.
Proof. apply Z2Qc_inj_0. Qed.

Lemma Qc_of_nat_S (n : nat) : Qc_of_nat (S n) = Qc_of_nat n + 1.
Proof.
  unfold Qc_of_nat. by rewrite Nat2Z.inj_succ, <- Z.add_1_r, Z2Qc_inj_add,
    Z2Qc_inj_1.
Qed.

Lemma Qc_of_nat_neq_0 (n : nat) : n ≠ 0%nat → Qc_of_nat n ≠ 0.
Proof.
  intros Hn. unfold Qc_of_nat. rewrite <- Z2Qc_inj_0, Z2Qc_inj_iff. lia.
Qed.

Lemma Qc_of_nat_ge_1 (n : nat) : n ≠ 0%nat → 1 <= Qc_of_nat n.
Proof.
  intros Hn. unfold Qc_of_nat. rewrite <- Z2Qc_inj_1, <- Z2Qc_inj_le. lia.
Qed.

Lemma Qc_of_nat_pos (n : nat) : n ≠ 0%nat → 0 < Qc_of_nat n.
Proof.
  intros Hn. unfold Qc_of_nat. rewrite <- Z2Qc_inj_0, <- Z2Qc_inj_lt. lia.
Qed.

Lemma truediv_Ok (a b : Qc) : b ≠ 0 → truediv a b = Ok (a / b).
Proof. intros Hb. unfold truediv. by rewrite decide_False. Qed.

Lemma truediv_0 (a : Qc) : truediv a 0 = Raise ZeroDivisionError.
Proof. unfold truediv. by rewrite decide_True. Qed.

Lemma len_neq_0 {V : Type} (m : gmap string V) : m ≠ ∅ → len m ≠ 0.
Proof. intros Hm. by apply Qc_of_nat_neq_0, map_size_non_empty_iff. Qed.

Lemma nonempty_of_key {V : Type} (m : gmap string V) (k : string) :
  is_Some (m !! k) → m ≠ ∅.
Proof. intros [v Hv] ->. by rewrite lookup_empty in Hv. Qed.

(** ** The transition model *)

Lemma transition_model_no_links (corpus : gmap string (gset string))
    (page : string) (links : gset string) (damping_factor : Qc) :
  corpus !! page = Some links → size links = 0%nat →
  ∃ dist, transition_model corpus page damping_factor = Ok dist ∧
    ∀ p, dist !! p =
      if decide (p ∈ keys corpus) then Some (1 / len corpus) else None.
Proof.
  intros Hpage Hsize. unfold transition_model.
  rewrite (getitem_Some _ _ _ Hpage). simpl. rewrite decide_True by done.
  apply dict_comp_pure. intros p _. apply truediv_Ok, len_neq_0.
  by eapply nonempty_of_key.
Qed.

Lemma transition_model_links (corpus : gmap string (gset string))
    (page : string) (links : gset string) (damping_factor : Qc) :
  corpus !! page = Some links → size links ≠ 0%nat →
  ∃ dist, transition_model corpus page damping_factor = Ok dist ∧
    ∀ p, dist !! p =
      if decide (p ∈ keys corpus)
      then Some (linked_probability corpus links damping_factor p)
      else None.
Proof.
  intros Hpage Hsize. unfold transition_model.
  rewrite (getitem_Some _ _ _ Hpage). simpl. rewrite decide_False by done.
  rewrite (truediv_Ok _ (len_set links)) by by apply Qc_of_nat_neq_0.
  rewrite (truediv_Ok _ (len corpus))
    by by eapply len_neq_0, nonempty_of_key. simpl.
  eexists. split.
  - apply foldlM_pure with
      (g := λ d p, <[p := linked_probability corpus links damping_factor p]> d).
    by intros b p _.
  - intros p. by rewrite lookup_foldl_insert, lookup_empty.
Qed.

(** ** Sums *)

Lemma sum_list_app (l k : list Qc) :
  sum_list (l ++ k) = sum_list l + sum_list k.
Proof.
  induction l as [|x l IH]; simpl.
  - by rewrite Qcplus_0_l.
  - rewrite IH. ring.
Qed.

Lemma sum_list_Permutation (l k : list Qc) :
  l ≡ₚ k → sum_list l = sum_list k.
Proof.
  induction 1 as [|x l k _ IH|x y l|l k m _ IH1 _ IH2]; simpl.
  - done.
  - by rewrite IH.
  - ring.
  - by rewrite IH1.
Qed.

Lemma sum_over_Permutation (ks ks' : list string) (f : string → Qc) :
  ks ≡ₚ ks' → sum_over ks f = sum_over ks' f.
Proof. intros Hp. unfold sum_over. apply sum_list_Permutation. by rewrite Hp. Qed.

Lemma sum_over_nil (f : string → Qc) : sum_over [] f = 0.
Proof. done. Qed.

Lemma sum_over_cons (p : string) (ks : list string) (f : string → Qc) :
  sum_over (p :: ks) f = f p + sum_over ks f.
Proof. done. Qed.

Lemma sum_over_app (ks ks' : list string) (f : string → Qc) :
  sum_over (ks ++ ks') f = sum_over ks f + sum_over ks' f.
Proof. unfold sum_over. by rewrite fmap_app, sum_list_app. Qed.

Lemma sum_over_ext (ks : list string) (f g : string → Qc) :
  (∀ p, p ∈ ks → f p = g p) → sum_over ks f = sum_over ks g.
Proof.
  intros Hfg. unfold sum_over. f_equal. apply list_fmap_ext.
  intros i p Hi. apply Hfg. by eapply list_elem_of_lookup_2.
Qed.

Lemma sum_over_const (ks : list string) (c : Qc) :
  sum_over ks (λ _, c) = Qc_of_nat (length ks) * c.
Proof.
  induction ks as [|p ks IH].
  - rewrite sum_over_nil. simpl. rewrite Qc_of_nat_0. ring.
  - rewrite sum_over_cons, IH. simpl. rewrite Qc_of_nat_S. ring.
Qed.

Lemma sum_over_zero (ks : list string) (f : string → Qc) :
  (∀ p, p ∈ ks → f p = 0) → sum_over ks f = 0.
Proof.
  intros Hf. rewrite (sum_over_ext _ _ (λ _, 0)) by done.
  rewrite sum_over_const. ring.
Qed.

Lemma sum_over_plus (ks : list string) (f g : string → Qc) :
  sum_over ks (λ p, f p + g p) = sum_over ks f + sum_over ks g.
Proof.
  induction ks as [|p ks IH].
  - rewrite !sum_over_nil. ring.
  - rewrite !sum_over_cons, IH. ring.
Qed.

Lemma sum_over_scale (ks : list string) (c : Qc) (f : string → Qc) :
  sum_over ks (λ p, c * f p) = c * sum_over ks f.
Proof.
  induction ks as [|p ks IH].
  - rewrite !sum_over_nil. ring.
  - rewrite !sum_over_cons, IH. ring.
Qed.

Lemma sum_over_exchange (ks ks' : list string) (f : string → string → Qc) :
  sum_over ks (λ p, sum_over ks' (λ q, f p q)) =
  sum_over ks' (λ q, sum_over ks (λ p, f p q)).
Proof.
  induction ks as [|p ks IH].
  - rewrite sum_over_nil. symmetry. by apply sum_over_zero.
  - rewrite sum_over_cons, IH, <- sum_over_plus. by apply sum_over_ext.
Qed.

(** Summing a constant over the members of a set of pages, all of which are
    among the pages summed over. *)
Lemma sum_over_members (ks : list string) (X : gset string) (c : Qc) :
  NoDup ks → (∀ p, p ∈ X → p ∈ ks) →
  sum_over ks (λ p, if decide (p ∈ X) then c else 0) = Qc_of_nat (size X) * c.
Proof.
  intros Hks HX.
  destruct (submseteq_Permutation (elements X) ks) as [rest Hrest].
  { apply NoDup_submseteq; [apply NoDup_elements|].
    intros p Hp. apply HX. by apply elem_of_elements. }
  rewrite (sum_over_Permutation _ _ _ Hrest), sum_over_app.
  rewrite Hrest in Hks. apply NoDup_app in Hks as (_ & Hdisj & _).
  rewrite (sum_over_ext (elements X) _ (λ _, c)).
  2:{ intros p Hp. rewrite decide_True; [done|]. by apply elem_of_elements. }
  rewrite (sum_over_zero rest).
  2:{ intros p Hp. rewrite decide_False; [done|]. intros Hin.
      apply (Hdisj p); [by apply elem_of_elements|done]. }
  rewrite sum_over_const. unfold size, set_size. simpl. ring.
Qed.

(** The sum of a dictionary's values, as a sum over its keys. *)
Lemma sum_values_over (m : gmap string Qc) (h : string → Qc) :
  (∀ p v, m !! p = Some v → v = h p) →
  sum_values m = sum_over (keys m) h.
Proof.
  intros Hm. unfold sum_values, sum_over. f_equal.
  apply (inj (fmap Some)). rewrite values_keys, <- list_fmap_compose.
  apply list_fmap_ext. intros i p Hi. simpl.
  apply list_elem_of_lookup_2, elem_of_keys in Hi as [v Hv].
  rewrite Hv. f_equal. by apply Hm.
Qed.

Lemma sum_values_over_corpus {V : Type} (corpus : gmap string V)
    (m : gmap string Qc) (h : string → Qc) :
  (∀ p, m !! p = if decide (p ∈ keys corpus) then Some (h p) else None) →
  sum_values m = sum_over (keys corpus) h.
Proof.
  intros Hm. rewrite (sum_values_over m h).
  - apply sum_over_Permutation, keys_Permutation.
    by eapply dom_of_lookups.
  - intros p v. rewrite Hm. case_decide; congruence.
Qed.

(** ** The transition model: its distribution *)

Lemma div_nat_bounds (a : Qc) (n : nat) :
  n ≠ 0%nat → 0 <= a → 0 <= a / Qc_of_nat n ∧ a / Qc_of_nat n <= a.
Proof.
  intros Hn Ha. unfold Qcdiv.
  assert (0 < / Qc_of_nat n) as Hinv by by apply Qcinv_pos, Qc_of_nat_pos.
  split.
  - apply Qcmult_nonneg_nonneg; [done|]. by apply Qclt_le_weak.
  - rewrite <- (Qcmult_1_r a) at 2.
    apply Qcmult_le_mono_nonneg_l; [done|].
    rewrite <- (Qcmult_inv_l (Qc_of_nat n)) by by apply Qc_of_nat_neq_0.
    rewrite <- (Qcmult_1_r (/ Qc_of_nat n)) at 1.
    apply Qcmult_le_mono_nonneg_l; [by apply Qclt_le_weak|].
    by apply Qc_of_nat_ge_1.
Qed.

Lemma transition_model_total (corpus : gmap string (gset string))
    (page : string) (links : gset string) (damping_factor : Qc) :
  corpus !! page = Some links → links ⊆ dom corpus →
  ∃ dist, transition_model corpus page damping_factor = Ok dist ∧
    dom dist = dom corpus ∧ sum_values dist = 1.
Proof.
  intros Hpage Hsub.
  assert (len corpus ≠ 0) as HN by by eapply len_neq_0, nonempty_of_key.
  destruct (decide (size links = 0%nat)) as [Hsize|Hsize].
  - destruct (transition_model_no_links corpus page links damping_factor)
      as (dist & Hrun & Hdist); [done..|].
    exists dist. split_and!; [done|exact (dom_of_lookups _ _ _ Hdist)|].
    rewrite (sum_values_over_corpus _ _ _ Hdist), sum_over_const.
    rewrite length_keys. fold (len corpus). by field.
  - destruct (transition_model_links corpus page links damping_factor)
      as (dist & Hrun & Hdist); [done..|].
    exists dist. split_and!; [done|exact (dom_of_lookups _ _ _ Hdist)|].
    rewrite (sum_values_over_corpus _ _ _ Hdist).
    rewrite (sum_over_ext _ _ (λ p, (1 - damping_factor) / len corpus +
      (if decide (p ∈ links) then damping_factor / len_set links else 0))).
    2:{ intros p _. unfold linked_probability. case_decide; ring. }
    rewrite sum_over_plus, sum_over_const, sum_over_members.
    + rewrite length_keys. fold (len corpus) (len_set links).
      assert (len_set links ≠ 0) by by apply Qc_of_nat_neq_0.
      by field.
    + apply NoDup_keys.
    + intros p Hp. apply elem_of_keys_dom. by apply Hsub.
Qed.

(** C3: for a page that is a key of the graph and has no out-links, the
    transition model returns the uniform distribution: its domain is the
    graph's key set and every page has probability 1/N, whatever the damping
    factor is. *)
Theorem transition_model_dangling_uniform (corpus : gmap string (gset string))
    (page : string) :
  corpus !! page = Some ∅ →
  ∃ dist, dom dist = dom corpus ∧
    (∀ p, p ∈ dom corpus → dist !! p = Some (1 / len corpus)) ∧
    ∀ damping_factor, transition_model corpus page damping_factor = Ok dist.
Proof.
  intros Hpage.
  destruct (transition_model_no_links corpus page ∅ 0) as (dist & Hrun & Hdist);
    [done..|].
  exists dist. split_and!.
  - exact (dom_of_lookups _ _ _ Hdist).
  - intros p Hp. rewrite Hdist, decide_True; [done|]. by apply elem_of_keys_dom.
  - intros damping_factor.
    destruct (transition_model_no_links corpus page ∅ damping_factor)
      as (dist' & Hrun' & Hdist'); [done..|].
    rewrite Hrun'. f_equal. apply map_eq. intros p. by rewrite Hdist, Hdist'.
Qed.

Lemma transition_model_dangling_uniform_witness :
  ∃ dist, dom dist = dom a_to_b ∧
    (∀ p, p ∈ dom a_to_b → dist !! p = Some (1 / len a_to_b)) ∧
    ∀ damping_factor, transition_model a_to_b "B" damping_factor = Ok dist.
Proof. apply (transition_model_dangling_uniform a_to_b "B"). reflexivity. Defined.

(** C4: for a page that is a key of the graph and has L >= 1 out-links, the
    transition model gives every page p of the graph the probability
    (1-d)/N + d/L when p is one of the out-links and (1-d)/N otherwise. *)
Theorem transition_model_linked (corpus : gmap string (gset string))
    (page : string) (links : gset string) (damping_factor : Qc) :
  corpus !! page = Some links → (1 <= size links)%nat →
  ∃ dist, transition_model corpus page damping_factor = Ok dist ∧
    ∀ p, p ∈ dom corpus →
      dist !! p = Some (if decide (p ∈ links)
                        then (1 - damping_factor) / len corpus
                             + damping_factor / Qc_of_nat (size links)
                        else (1 - damping_factor) / len corpus).
Proof.
  intros Hpage Hsize.
  destruct (transition_model_links corpus page links damping_factor)
    as (dist & Hrun & Hdist); [done|lia|].
  exists dist. split; [done|]. intros p Hp.
  rewrite Hdist, decide_True; [done|]. by apply elem_of_keys_dom.
Qed.

Lemma transition_model_linked_witness :
  ∃ dist, transition_model a_to_b "A" d85 = Ok dist ∧
    ∀ p, p ∈ dom a_to_b →
      dist !! p = Some (if decide (p ∈ ({["B"]} : gset string))
                        then (1 - d85) / len a_to_b
                             + d85 / Qc_of_nat (size ({["B"]} : gset string))
                        else (1 - d85) / len a_to_b).
Proof.
  apply (transition_model_linked a_to_b "A" {["B"]} d85).
  - reflexivity.
  - vm_compute. lia.
Defined.

(** C5: on a graph whose links all point to pages of the graph, for every
    page that is a key and every damping factor (those in [0,1] included),
    the probabilities returned by the transition model sum to exactly 1. *)
Theorem transition_model_sums_to_one (corpus : gmap string (gset string))
    (page : string) (damping_factor : Qc) :
  links_closed corpus → is_Some (corpus !! page) →
  ∃ dist, transition_model corpus page damping_factor = Ok dist ∧
    sum_values dist = 1.
Proof.
  intros Hclosed [links Hpage].
  destruct (transition_model_total corpus page links damping_factor)
    as (dist & Hrun & _ & Hsum); [done|by eapply Hclosed|].
  by exists dist.
Qed.

Lemma transition_model_sums_to_one_witness :
  ∃ dist, transition_model a_to_b "A" d85 = Ok dist ∧ sum_values dist = 1.
Proof.
  apply (transition_model_sums_to_one a_to_b "A" d85).
  - apply (bool_decide_unpack _). vm_compute. exact I.
  - apply (bool_decide_unpack _). vm_compute. exact I.
Defined.

(** C10: for every page that is a key of the graph and every damping factor
    in [0,1], the mapping returned by the transition model is defined on
    exactly the keys of the graph, and every probability in it lies in
    [0,1]. *)
Theorem transition_model_distribution (corpus : gmap string (gset string))
    (page : string) (damping_factor : Qc) :
  is_Some (corpus !! page) → 0 <= damping_factor <= 1 →
  ∃ dist, transition_model corpus page damping_factor = Ok dist ∧
    dom dist = dom corpus ∧
    ∀ p v, dist !! p = Some v → 0 <= v <= 1.
Proof.
  intros [links Hpage] [Hd0 Hd1].
  assert (size corpus ≠ 0%nat) as HN.
  { apply map_size_non_empty_iff. by eapply nonempty_of_key. }
  assert (0 <= 1 - damping_factor) as Hd1'.
  { by apply (proj1 (Qcle_minus_iff damping_factor 1)). }
  destruct (decide (size links = 0%nat)) as [Hsize|Hsize].
  - destruct (transition_model_no_links corpus page links damping_factor)
      as (dist & Hrun & Hdist); [done..|].
    exists dist. split_and!; [done|exact (dom_of_lookups _ _ _ Hdist)|].
    intros p v. rewrite Hdist. case_decide; [|done]. intros [= <-].
    by apply div_nat_bounds.
  - destruct (transition_model_links corpus page links damping_factor)
      as (dist & Hrun & Hdist); [done..|].
    exists dist. split_and!; [done|exact (dom_of_lookups _ _ _ Hdist)|].
    intros p v. rewrite Hdist. case_decide; [|done]. intros [= <-].
    destruct (div_nat_bounds (1 - damping_factor) (size corpus)) as [Hb0 Hb1];
      [done..|].
    destruct (div_nat_bounds damping_factor (size links)) as [Hl0 Hl1];
      [done..|].
    unfold linked_probability, len, len_set. case_decide.
    + split; [by apply Qcplus_nonneg_nonneg|].
      apply Qcle_trans with (1 - damping_factor + damping_factor);
        [by apply Qcplus_le_compat|].
      by replace (1 - damping_factor + damping_factor) with 1 by ring.
    + split; [done|]. etrans; [done|].
      rewrite <- (Qcplus_0_r 1). unfold Qcminus.
      apply Qcplus_le_compat; [done|].
      apply Qcopp_le_compat in Hd0. exact Hd0.
Qed.

Lemma transition_model_distribution_witness :
  ∃ dist, transition_model a_to_b "A" d85 = Ok dist ∧
    dom dist = dom a_to_b ∧
    ∀ p v, dist !! p = Some v → 0 <= v <= 1.
Proof.
  apply (transition_model_distribution a_to_b "A" d85).
  - apply (bool_decide_unpack _). vm_compute. exact I.
  - split; apply (bool_decide_unpack _); vm_compute; exact I.
Defined.

(** ** The iterative estimator: one sweep *)

Lemma sum_over_filter (P : string → Prop) `{!∀ q, Decision (P q)}
    (ks : list string) (f : string → Qc) :
  sum_over (filter P ks) f = sum_over ks (λ q, if decide (P q) then f q else 0).
Proof.
  induction ks as [|q ks IH]; [done|].
  rewrite filter_cons, sum_over_cons, <- IH.
  destruct (decide (P q)); [done|]. by rewrite Qcplus_0_l.
Qed.

Lemma recurrence_contribution (corpus : gmap string (gset string))
    (damping_factor : Qc) (old : gmap string Qc) (p : string) :
  recurrence corpus damping_factor old p =
  (1 - damping_factor) / len corpus
  + damping_factor * sum_over (keys corpus) (contribution corpus old p).
Proof.
  unfold recurrence. by rewrite !sum_over_filter, <- sum_over_plus.
Qed.

Lemma size_empty_iff_L (X : gset string) : size X = 0%nat ↔ X = ∅.
Proof. by rewrite size_empty_iff, leibniz_equiv_iff. Qed.

Lemma summation_step_Ok (corpus : gmap string (gset string))
    (d : gmap string Qc) (p1 p2 : string) (acc : Qc) :
  is_Some (corpus !! p2) → is_Some (d !! p2) →
  summation_step corpus d p1 acc p2 = Ok (acc + contribution corpus d p1 p2).
Proof.
  intros [links Hlinks] [r Hr].
  assert (len corpus ≠ 0) as HN by by eapply len_neq_0, nonempty_of_key.
  unfold summation_step, contribution, out_links, rank.
  rewrite (getitem_Some _ _ _ Hlinks), (getitem_Some _ _ _ Hr), Hlinks, Hr.
  simpl. destruct (decide (p1 ∈ links)) as [Hin|Hin]; simpl.
  - assert (size links ≠ 0%nat) as HL.
    { rewrite size_empty_iff_L. intros ->. by apply not_elem_of_empty in Hin. }
    rewrite (truediv_Ok _ (len_set links)) by by apply Qc_of_nat_neq_0.
    simpl. rewrite decide_False by done.
    rewrite decide_False by by rewrite <- size_empty_iff_L.
    f_equal. ring.
  - destruct (decide (size links = 0%nat)) as [HL|HL].
    + rewrite truediv_Ok by done. simpl.
      rewrite decide_True by by apply size_empty_iff_L.
      f_equal. ring.
    + rewrite decide_False by by rewrite <- size_empty_iff_L.
      f_equal. ring.
Qed.

Lemma foldl_plus_sum_over (c : string → Qc) (ks : list string) (acc : Qc) :
  foldl (λ acc p, acc + c p) acc ks = acc + sum_over ks c.
Proof.
  revert acc. induction ks as [|p ks IH]; intros acc; simpl.
  - rewrite sum_over_nil. ring.
  - rewrite IH, sum_over_cons. ring.
Qed.

Lemma summation_of_Ok (corpus : gmap string (gset string))
    (d : gmap string Qc) (p1 : string) :
  dom d = dom corpus →
  summation_of corpus d p1
  = Ok (sum_over (keys corpus) (contribution corpus d p1)).
Proof.
  intros Hdom. unfold summation_of.
  rewrite (foldlM_pure _ (λ acc p2, acc + contribution corpus d p1 p2)).
  - by rewrite foldl_plus_sum_over, Qcplus_0_l.
  - intros acc p2 Hp2. apply elem_of_keys_dom in Hp2.
    apply summation_step_Ok; by rewrite <- elem_of_dom, ?Hdom.
Qed.

Lemma sweep_Ok (corpus : gmap string (gset string)) (damping_factor : Qc)
    (old buffer : gmap string Qc) :
  dom old = dom corpus →
  ∃ new, sweep corpus damping_factor old buffer = Ok new ∧
    ∀ p, new !! p = if decide (p ∈ keys corpus)
                    then Some (recurrence corpus damping_factor old p)
                    else buffer !! p.
Proof.
  intros Hdom. eexists. split.
  - unfold sweep. apply foldlM_pure with
      (g := λ new_d p1, <[p1 := recurrence corpus damping_factor old p1]> new_d).
    intros b p1 Hp1. rewrite summation_of_Ok by done. simpl.
    rewrite truediv_Ok.
    2:{ eapply len_neq_0, nonempty_of_key. by apply elem_of_keys. }
    simpl. by rewrite recurrence_contribution.
  - intros p. by rewrite lookup_foldl_insert.
Qed.

Lemma sweep_dom (corpus : gmap string (gset string))
    (old buffer new : gmap string Qc) (h : string → Qc) :
  dom buffer = dom corpus →
  (∀ p, new !! p = if decide (p ∈ keys corpus) then Some (h p)
                   else buffer !! p) →
  ∀ p, new !! p = if decide (p ∈ keys corpus) then Some (h p) else None.
Proof.
  intros Hdom Hnew p. rewrite Hnew. case_decide as Hp; [done|].
  apply not_elem_of_dom. by rewrite Hdom, <- elem_of_keys_dom.
Qed.

(** ** The iterative estimator: the comparison scan *)

Lemma scan_Ok (d new_d : gmap string Qc) (pages : list string) (pr : Qc) :
  (∀ p, p ∈ pages → is_Some (d !! p) ∧ is_Some (new_d !! p)) →
  ∃ change, scan d new_d pr pages = Ok change ∧
    (pages = [] → change = pr) ∧
    (pages ≠ [] →
       change <= threshold ↔
       ∀ p, p ∈ pages → Qcabs (rank d p - rank new_d p) <= threshold).
Proof.
  revert pr. induction pages as [|page pages IH]; intros pr Hpages.
  - exists pr. by split_and!.
  - destruct (Hpages page) as [[a Ha] [b Hb]]; [by left|].
    cbn [scan]. rewrite (getitem_Some _ _ _ Ha), (getitem_Some _ _ _ Hb).
    simpl. assert (Qcabs (rank d page - rank new_d page) = Qcabs (a - b)) as Hab.
    { unfold rank. by rewrite Ha, Hb. }
    destruct (decide (threshold < Qcabs (a - b))) as [Hgt|Hle].
    + eexists. split_and!; [done..|]. intros _. split.
      * intros Hle. by apply Qcle_not_lt in Hle.
      * intros Hall. rewrite <- Hab. apply Hall. by left.
    + apply Qcnot_lt_le in Hle.
      destruct (IH (Qcabs (a - b))) as (change & Hrun & Hnil & Hcons).
      { intros p Hp. apply Hpages. by right. }
      exists change. split_and!; [done..|]. intros _.
      destruct pages as [|page' pages'].
      * rewrite Hnil by done. split; [|done].
        intros _ p Hp. apply list_elem_of_singleton in Hp as ->. by rewrite Hab.
      * rewrite Hcons by done. split.
        -- intros Hall p Hp. apply elem_of_cons in Hp as [->|Hp];
             [by rewrite Hab|by apply Hall].
        -- intros Hall p Hp. apply Hall. by right.
Qed.

Lemma scan_Permutation (d new_d : gmap string Qc) (pages pages' : list string)
    (pr pr' change : Qc) :
  pages ≡ₚ pages' → pages ≠ [] →
  (∀ p, p ∈ pages → is_Some (d !! p) ∧ is_Some (new_d !! p)) →
  scan d new_d pr pages = Ok change →
  ∃ change', scan d new_d pr' pages' = Ok change' ∧
    (change' <= threshold ↔ change <= threshold).
Proof.
  intros Hperm Hne Hpages Hrun.
  destruct (scan_Ok d new_d pages pr) as (c & Hc & _ & Hiff); [done|].
  destruct (scan_Ok d new_d pages' pr') as (c' & Hc' & _ & Hiff').
  { intros p Hp. apply Hpages. by rewrite Hperm. }
  assert (c = change) as -> by congruence.
  exists c'. split; [done|]. rewrite Hiff by done. rewrite Hiff'.
  - by setoid_rewrite Hperm.
  - intros ->. by apply Permutation_nil_r in Hperm.
Qed.

(** ** The iterative estimator: the loop *)

Lemma initial_state_Ok (corpus : gmap string (gset string)) :
  ∃ d0 new_d0,
    initial_state corpus
    = Ok {| d := d0; new_d := new_d0; pr_value_change := Q2Qc (2 # 1000) |} ∧
    (∀ p, d0 !! p = if decide (p ∈ keys corpus) then Some (1 / len corpus)
                    else None) ∧
    (∀ p, new_d0 !! p = if decide (p ∈ keys corpus) then Some 0 else None).
Proof.
  destruct (dict_comp_pure (λ p, truediv 1 (len corpus))
              (λ _, 1 / len corpus) (keys corpus)) as (d0 & Hd0 & Hl0).
  { intros p Hp. apply truediv_Ok. eapply len_neq_0, nonempty_of_key.
    by apply elem_of_keys. }
  destruct (dict_comp_pure (λ p, Ok 0) (λ _, 0) (keys corpus))
    as (n0 & Hn0 & Hln0); [done|].
  exists d0, n0. unfold initial_state. rewrite Hd0. simpl. rewrite Hn0. done.
Qed.

Lemma loop_body_Ok (corpus : gmap string (gset string)) (damping_factor : Qc)
    (st : iter_state) :
  dom (d st) = dom corpus → dom (new_d st) = dom corpus →
  ∃ new change,
    sweep corpus damping_factor (d st) (new_d st) = Ok new ∧
    scan (d st) new (pr_value_change st) (keys corpus) = Ok change ∧
    loop_body corpus damping_factor st
    = Ok {| d := new; new_d := new; pr_value_change := change |} ∧
    (∀ p, new !! p = if decide (p ∈ keys corpus)
                     then Some (recurrence corpus damping_factor (d st) p)
                     else None).
Proof.
  intros Hd Hnew.
  destruct (sweep_Ok corpus damping_factor (d st) (new_d st))
    as (new & Hsweep & Hlookup); [done|].
  pose proof (sweep_dom corpus (d st) _ _ _ Hnew Hlookup) as Hlookup'.
  destruct (scan_Ok (d st) new (keys corpus) (pr_value_change st))
    as (change & Hscan & _).
  { intros p Hp. rewrite Hlookup', decide_True by done. split; [|by eexists].
    apply elem_of_dom. rewrite Hd. by apply elem_of_keys_dom. }
  exists new, change. split_and!; [done..| |done].
  unfold loop_body. rewrite Hsweep. simpl. by rewrite Hscan.
Qed.

Lemma reachable_dom (corpus : gmap string (gset string)) (damping_factor : Qc)
    (st : iter_state) :
  reachable corpus damping_factor st →
  dom (d st) = dom corpus ∧ dom (new_d st) = dom corpus.
Proof.
  induction 1 as [st Hinit|st st' _ [Hd Hnew] _ Hbody].
  - destruct (initial_state_Ok corpus) as (d0 & n0 & Hrun & Hd0 & Hn0).
    rewrite Hrun in Hinit. injection Hinit as <-. simpl.
    split; [exact (dom_of_lookups _ _ _ Hd0)|exact (dom_of_lookups _ _ _ Hn0)].
  - destruct (loop_body_Ok corpus damping_factor st)
      as (new & change & _ & _ & Hrun & Hlookup); [done..|].
    rewrite Hrun in Hbody. injection Hbody as <-. simpl.
    split; exact (dom_of_lookups _ _ _ Hlookup).
Qed.

(** C1: in every state the loop of the iterative estimator passes through,
    the sweep gives every page p of the graph the new rank
    (1-d)/N + d * (sum over the pages q linking to p of old(q)/L(q), plus
    old(q)/N for every page q without out-links), where old is the rank
    vector [d] the state holds, that is the complete result of the previous
    sweep.  The vector the sweep writes into is not read: whatever ranks that
    buffer holds for the pages of the graph, the sweep produces the same new
    vector, and this vector becomes the next state's [d]. *)
Theorem sweep_computes_recurrence (corpus : gmap string (gset string))
    (damping_factor : Qc) (st : iter_state) :
  reachable corpus damping_factor st →
  ∃ new,
    (∀ p, p ∈ dom corpus →
       new !! p = Some (recurrence corpus damping_factor (d st) p)) ∧
    dom new = dom corpus ∧
    (∀ buffer, dom buffer = dom corpus →
       sweep corpus damping_factor (d st) buffer = Ok new) ∧
    ∃ st', loop_body corpus damping_factor st = Ok st' ∧ d st' = new.
Proof.
  intros Hreach. destruct (reachable_dom _ _ _ Hreach) as [Hd Hnew].
  destruct (loop_body_Ok corpus damping_factor st)
    as (new & change & Hsweep & _ & Hbody & Hlookup); [done..|].
  exists new. split_and!.
  - intros p Hp. rewrite Hlookup, decide_True; [done|].
    by apply elem_of_keys_dom.
  - exact (dom_of_lookups _ _ _ Hlookup).
  - intros buffer Hbuffer.
    destruct (sweep_Ok corpus damping_factor (d st) buffer)
      as (new' & Hsweep' & Hlookup'); [done|].
    rewrite Hsweep'. f_equal. apply map_eq. intros p.
    by rewrite (sweep_dom corpus (d st) _ _ _ Hbuffer Hlookup'), Hlookup.
  - eexists. by split.
Qed.

Lemma sweep_computes_recurrence_witness :
  ∃ st, initial_state a_to_b = Ok st ∧
  ∃ new,
    (∀ p, p ∈ dom a_to_b → new !! p = Some (recurrence a_to_b d85 (d st) p)) ∧
    dom new = dom a_to_b ∧
    (∀ buffer, dom buffer = dom a_to_b →
       sweep a_to_b d85 (d st) buffer = Ok new) ∧
    ∃ st', loop_body a_to_b d85 st = Ok st' ∧ d st' = new.
Proof.
  destruct (initial_state a_to_b) as [st|e] eqn:Hinit;
    [|by vm_compute in Hinit].
  exists st. split; [reflexivity|].
  apply (sweep_computes_recurrence a_to_b d85 st).
  by apply reachable_initial.
Defined.

(** C2: after the sweep of any state the loop passes through on a non-empty
    graph, the loop condition is false exactly when every page's absolute
    rank change between the previous and the new vector is at most 0.001.
    When it is false the loop returns the new vector; when some page's change
    exceeds the threshold the loop runs its body again.  The verdict is the
    same in whatever order the scan examines the pages, despite its early
    exit. *)
Theorem loop_stops_iff_all_within_threshold
    (corpus : gmap string (gset string)) (damping_factor : Qc)
    (st : iter_state) :
  corpus ≠ ∅ → reachable corpus damping_factor st →
  ∃ st', loop_body corpus damping_factor st = Ok st' ∧
    (loop_continues st' = false ↔
     ∀ p, p ∈ dom corpus →
       Qcabs (rank (d st) p - rank (d st') p) <= threshold) ∧
    (∀ pages pr, pages ≡ₚ keys corpus →
       ∃ change, scan (d st) (d st') pr pages = Ok change ∧
         (change <= threshold ↔ loop_continues st' = false)) ∧
    (loop_continues st' = false →
     ∀ fuel, while_loop (S fuel) corpus damping_factor st'
             = Some (Ok (d st'))) ∧
    (loop_continues st' = true →
     ∀ fuel, while_loop (S fuel) corpus damping_factor st'
             = match loop_body corpus damping_factor st' with
               | Ok st'' => while_loop fuel corpus damping_factor st''
               | Raise e => Some (Raise e)
               end).
Proof.
  intros Hne Hreach. destruct (reachable_dom _ _ _ Hreach) as [Hd Hnew].
  destruct (loop_body_Ok corpus damping_factor st)
    as (new & change & _ & Hscan & Hbody & Hlookup); [done..|].
  assert (∀ p, p ∈ keys corpus → is_Some (d st !! p) ∧ is_Some (new !! p))
    as Hkeys.
  { intros p Hp. rewrite Hlookup, decide_True by done. split; [|by eexists].
    apply elem_of_dom. rewrite Hd. by apply elem_of_keys_dom. }
  destruct (scan_Ok (d st) new (keys corpus) (pr_value_change st))
    as (change' & Hscan' & _ & Hiff); [done|].
  assert (change' = change) as -> by congruence.
  specialize (Hiff (keys_nonempty _ Hne)).
  assert (loop_continues {| d := new; new_d := new;
                            pr_value_change := change |} = false
          ↔ change <= threshold) as Hflag.
  { unfold loop_continues. simpl. rewrite bool_decide_eq_false.
    by rewrite Qcle_ngt. }
  eexists. split; [exact Hbody|]. simpl. split_and!.
  - rewrite Hflag, Hiff. by setoid_rewrite elem_of_keys_dom.
  - intros pages pr Hperm. setoid_rewrite Hflag.
    apply (scan_Permutation _ _ (keys corpus) pages (pr_value_change st));
      [done|by apply keys_nonempty|done..].
  - intros Hstop fuel. simpl. by rewrite Hstop.
  - intros Hcont fuel. cbn [while_loop]. by rewrite Hcont.
Qed.

Lemma loop_stops_iff_all_within_threshold_witness :
  ∃ st, initial_state two_cycle = Ok st ∧
  ∃ st', loop_body two_cycle d85 st = Ok st' ∧
    (loop_continues st' = false ↔
     ∀ p, p ∈ dom two_cycle →
       Qcabs (rank (d st) p - rank (d st') p) <= threshold) ∧
    (∀ pages pr, pages ≡ₚ keys two_cycle →
       ∃ change, scan (d st) (d st') pr pages = Ok change ∧
         (change <= threshold ↔ loop_continues st' = false)) ∧
    (loop_continues st' = false →
     ∀ fuel, while_loop (S fuel) two_cycle d85 st' = Some (Ok (d st'))) ∧
    (loop_continues st' = true →
     ∀ fuel, while_loop (S fuel) two_cycle d85 st'
             = match loop_body two_cycle d85 st' with
               | Ok st'' => while_loop fuel two_cycle d85 st''
               | Raise e => Some (Raise e)
               end).
Proof.
  destruct (initial_state two_cycle) as [st|e] eqn:Hinit;
    [|by vm_compute in Hinit].
  exists st. split; [reflexivity|].
  apply (loop_stops_iff_all_within_threshold two_cycle d85 st).
  - apply (bool_decide_unpack _). vm_compute. exact I.
  - by apply reachable_initial.
Defined.

(** ** The iterative estimator: conservation of the total rank *)

Lemma sum_values_rank (corpus : gmap string (gset string))
    (ranks : gmap string Qc) :
  dom ranks = dom corpus →
  sum_values ranks = sum_over (keys corpus) (rank ranks).
Proof.
  intros Hdom. rewrite (sum_values_over ranks (rank ranks)).
  - by apply sum_over_Permutation, keys_Permutation.
  - intros p v Hp. unfold rank. by rewrite Hp.
Qed.

Lemma out_links_closed (corpus : gmap string (gset string)) (q : string) :
  links_closed corpus → out_links corpus q ⊆ dom corpus.
Proof.
  intros Hclosed. unfold out_links.
  destruct (corpus !! q) as [links|] eqn:Hq; simpl.
  - by eapply Hclosed.
  - apply empty_subseteq.
Qed.

(** Whatever the loop returns is the rank vector of a state it passed
    through, and that state fails the loop condition. *)
Lemma while_loop_returns (corpus : gmap string (gset string))
    (damping_factor : Qc) (fuel : nat) (st : iter_state)
    (r : result (gmap string Qc)) :
  reachable corpus damping_factor st →
  while_loop fuel corpus damping_factor st = Some r →
  ∃ st', reachable corpus damping_factor st' ∧
    loop_continues st' = false ∧ r = Ok (d st').
Proof.
  revert st. induction fuel as [|fuel IH]; intros st Hreach Hrun; [done|].
  cbn [while_loop] in Hrun.
  destruct (loop_continues st) eqn:Hcont.
  - destruct (reachable_dom _ _ _ Hreach) as [Hd Hnew].
    destruct (loop_body_Ok corpus damping_factor st)
      as (new & change & _ & _ & Hbody & _); [done..|].
    rewrite Hbody in Hrun. apply IH in Hrun; [done|].
    by eapply reachable_step.
  - injection Hrun as <-. by exists st.
Qed.

Lemma iterate_pagerank_returns (corpus : gmap string (gset string))
    (damping_factor : Qc) (fuel : nat) (r : result (gmap string Qc)) :
  iterate_pagerank fuel corpus damping_factor = Some r →
  ∃ st', reachable corpus damping_factor st' ∧
    loop_continues st' = false ∧ r = Ok (d st').
Proof.
  unfold iterate_pagerank.
  destruct (initial_state_Ok corpus) as (d0 & n0 & Hrun & _).
  rewrite Hrun. apply while_loop_returns. by apply reachable_initial.
Qed.

Section conservation.

Context (corpus : gmap string (gset string)) (damping_factor : Qc).
Hypothesis corpus_nonempty : corpus ≠ ∅.
Hypothesis corpus_closed : links_closed corpus.

(** What a page [q] hands out in total, over all receiving pages, is its own
    rank: its links stay inside the graph. *)
Lemma contribution_total (old : gmap string Qc) (q : string) :
  sum_over (keys corpus) (λ p, contribution corpus old p q) = rank old q.
Proof.
  unfold contribution.
  rewrite sum_over_plus, sum_over_const, sum_over_members, length_keys.
  - fold (len corpus). pose proof (len_neq_0 _ corpus_nonempty) as HN.
    destruct (decide (out_links corpus q = ∅)) as [Hq|Hq].
    + rewrite Hq, size_empty, Qc_of_nat_0, Qcmult_0_l. by field.
    + assert (len_set (out_links corpus q) ≠ 0) as HL.
      { by apply Qc_of_nat_neq_0; rewrite size_empty_iff_L. }
      fold (len_set (out_links corpus q)). by field.
  - apply NoDup_keys.
  - intros p Hp. apply elem_of_keys_dom.
    by apply (out_links_closed corpus q corpus_closed).
Qed.

Lemma recurrence_total (old : gmap string Qc) :
  dom old = dom corpus →
  sum_over (keys corpus) (recurrence corpus damping_factor old)
  = (1 - damping_factor) + damping_factor * sum_values old.
Proof.
  intros Hdom.
  rewrite (sum_over_ext _ _ (λ p, (1 - damping_factor) / len corpus
     + damping_factor * sum_over (keys corpus) (contribution corpus old p)))
    by (intros; apply recurrence_contribution).
  rewrite sum_over_plus, sum_over_const, sum_over_scale, sum_over_exchange.
  rewrite (sum_over_ext _ _ (rank old)) by (intros; apply contribution_total).
  rewrite <- (sum_values_rank corpus) by done.
  rewrite length_keys. fold (len corpus).
  pose proof (len_neq_0 _ corpus_nonempty). by field.
Qed.

Lemma loop_body_sum (st : iter_state) :
  dom (d st) = dom corpus → dom (new_d st) = dom corpus →
  sum_values (d st) = 1 →
  ∃ st', loop_body corpus damping_factor st = Ok st' ∧
    sweep corpus damping_factor (d st) (new_d st) = Ok (d st') ∧
    sum_values (d st') = 1.
Proof.
  intros Hd Hnew Hsum.
  destruct (loop_body_Ok corpus damping_factor st)
    as (new & change & Hsweep & _ & Hbody & Hlookup); [done..|].
  eexists. split_and!; [done..|]. simpl.
  rewrite (sum_values_over_corpus _ _ _ Hlookup), recurrence_total by done.
  rewrite Hsum. ring.
Qed.

Lemma initial_state_sum (st : iter_state) :
  initial_state corpus = Ok st → sum_values (d st) = 1.
Proof.
  intros Hinit.
  destruct (initial_state_Ok corpus) as (d0 & n0 & Hrun & Hd0 & _).
  rewrite Hrun in Hinit. injection Hinit as <-. simpl.
  rewrite (sum_values_over_corpus _ _ _ Hd0), sum_over_const, length_keys.
  fold (len corpus). pose proof (len_neq_0 _ corpus_nonempty). by field.
Qed.

Lemma reachable_sum (st : iter_state) :
  reachable corpus damping_factor st → sum_values (d st) = 1.
Proof.
  induction 1 as [st Hinit|st st' Hreach IH _ Hbody].
  - by apply initial_state_sum.
  - destruct (reachable_dom _ _ _ Hreach) as [Hd Hnew].
    destruct (loop_body_sum st) as (st'' & Hrun & _ & Hsum); [done..|].
    congruence.
Qed.

(** C6: on a non-empty graph whose links all point to pages of the graph,
    every state the loop passes through holds a rank vector that sums to 1,
    starting from the uniform 1/N vector; every sweep maps a rank vector
    summing to 1 to a new vector summing to 1; and whatever the estimator
    returns is a rank vector over the pages of the graph that sums to 1. *)
Theorem iterate_pagerank_conserves_mass :
  (∀ st, initial_state corpus = Ok st → sum_values (d st) = 1) ∧
  (∀ old buffer, dom old = dom corpus → dom buffer = dom corpus →
     sum_values old = 1 →
     ∃ new, sweep corpus damping_factor old buffer = Ok new ∧
       sum_values new = 1) ∧
  (∀ st, reachable corpus damping_factor st →
     sum_values (d st) = 1 ∧
     ∃ st', loop_body corpus damping_factor st = Ok st' ∧
       sum_values (d st') = 1) ∧
  (∀ fuel r, iterate_pagerank fuel corpus damping_factor = Some r →
     ∃ ranks, r = Ok ranks ∧ dom ranks = dom corpus ∧ sum_values ranks = 1).
Proof.
  split_and!.
  - apply initial_state_sum.
  - intros old buffer Hold Hbuffer Hsum.
    destruct (loop_body_sum
                {| d := old; new_d := buffer; pr_value_change := 0 |})
      as (st' & _ & Hsweep & Hsum'); [done..|].
    by exists (d st').
  - intros st Hreach. destruct (reachable_dom _ _ _ Hreach) as [Hd Hnew].
    pose proof (reachable_sum _ Hreach) as Hsum.
    split; [done|].
    destruct (loop_body_sum st) as (st' & Hbody & _ & Hsum'); [done..|].
    by exists st'.
  - intros fuel r Hrun.
    destruct (iterate_pagerank_returns _ _ _ _ Hrun) as (st' & Hreach & _ & ->).
    exists (d st'). split_and!; [done| |].
    + by destruct (reachable_dom _ _ _ Hreach).
    + by apply reachable_sum.
Qed.

End conservation.

Lemma iterate_pagerank_conserves_mass_witness :
  ∃ ranks, iterate_pagerank 50 a_to_b d85 = Some (Ok ranks) ∧
    dom ranks = dom a_to_b ∧ sum_values ranks = 1.
Proof.
  destruct (iterate_pagerank 50 a_to_b d85) as [r|] eqn:Hrun;
    [|by vm_compute in Hrun].
  destruct (iterate_pagerank_conserves_mass a_to_b d85) as (_ & _ & _ & Hret).
  - apply (bool_decide_unpack _). vm_compute. exact I.
  - apply (bool_decide_unpack _). vm_compute. exact I.
  - destruct (Hret 50%nat r Hrun) as (ranks & Hr & Hdom & Hsum).
    subst r. exists ranks. split; [reflexivity|]. split; assumption.
Defined.

(** ** The random source *)

Lemma list_getitem_Ok {A : Type} (l : list A) (i : nat) :
  (i < length l)%nat → ∃ x, list_getitem l i = Ok x ∧ x ∈ l.
Proof.
  intros Hi. destruct (lookup_lt_is_Some_2 l i Hi) as [x Hx].
  exists x. unfold list_getitem. rewrite Hx. split; [done|].
  by eapply list_elem_of_lookup_2.
Qed.

Lemma choice_Ok {A : Type} (g : rng) (seq : list A) :
  seq ≠ [] → ∃ x g', choice g seq = Ok (x, g') ∧ x ∈ seq.
Proof.
  intros Hseq. unfold choice.
  assert (length seq ≠ 0%nat) as Hlen by by rewrite length_zero_iff_nil.
  rewrite decide_False by done. unfold randbelow, rng_next.
  destruct (list_getitem_Ok seq (N.to_nat (g 0%nat mod N.of_nat (length seq))))
    as (x & Hx & Hin).
  { pose proof (N.mod_upper_bound (g 0%nat) (N.of_nat (length seq))). lia. }
  rewrite Hx. simpl. by eexists _, _.
Qed.

Lemma choice_empty {A : Type} (g : rng) : choice g (@nil A) = Raise IndexError.
Proof. done. Qed.

Lemma bisect_loop_Ok (rounds : nat) (a : list Qc) (x : Qc) (lo hi : nat) :
  (lo ≤ hi)%nat → (hi ≤ length a)%nat →
  ∃ i, bisect_loop rounds a x lo hi = Ok i ∧ (lo ≤ i ≤ hi)%nat.
Proof.
  revert lo hi. induction rounds as [|rounds IH]; intros lo hi Hlo Hhi;
    cbn [bisect_loop].
  - exists lo. split; [done|lia].
  - destruct (decide (lo < hi)%nat) as [Hlt|Hge]; [|exists lo; split; [done|lia]].
    assert (lo ≤ (lo + hi) `div` 2 < hi)%nat as Hmid.
    { split; [apply Nat.div_le_lower_bound; lia|].
      apply Nat.Div0.div_lt_upper_bound; lia. }
    destruct (list_getitem_Ok a ((lo + hi) `div` 2)) as (a_mid & -> & _);
      [lia|]. cbn [mbind result_bind].
    destruct (decide (x < a_mid)).
    + destruct (IH lo ((lo + hi) `div` 2)%nat) as (i & -> & Hi); [lia..|].
      exists i. split; [done|lia].
    + destruct (IH ((lo + hi) `div` 2 + 1)%nat hi) as (i & -> & Hi); [lia..|].
      exists i. split; [done|lia].
Qed.

Lemma accumulate_from_length (total : Qc) (weights : list Qc) :
  length (accumulate_from total weights) = length weights.
Proof.
  revert total. induction weights as [|w weights IH]; intros total; simpl;
    by rewrite ?IH.
Qed.

Lemma accumulate_length (weights : list Qc) :
  length (accumulate weights) = length weights.
Proof. destruct weights; simpl; by rewrite ?accumulate_from_length. Qed.

Lemma accumulate_from_last (total : Qc) (weights : list Qc) :
  last (total :: accumulate_from total weights)
  = Some (total + sum_list weights).
Proof.
  revert total. induction weights as [|w weights IH]; intros total.
  - simpl. by rewrite Qcplus_0_r.
  - change (last (total :: accumulate_from total (w :: weights)))
      with (last ((total + w) :: accumulate_from (total + w) weights)).
    rewrite IH. simpl. f_equal. ring.
Qed.

Lemma accumulate_last (weights : list Qc) :
  weights ≠ [] → last (accumulate weights) = Some (sum_list weights).
Proof.
  destruct weights as [|w weights]; [done|]. intros _.
  unfold accumulate. by rewrite accumulate_from_last.
Qed.

Lemma choices_Ok {A : Type} (g : rng) (population : list A)
    (weights : list Qc) :
  population ≠ [] → length weights = length population →
  0 < sum_list weights →
  ∃ x g', choices g population weights = Ok (x, g') ∧ x ∈ population.
Proof.
  intros Hpop Hlen Htotal. unfold choices.
  rewrite decide_False by by rewrite accumulate_length, Hlen; intros [].
  rewrite accumulate_last by by intros ->; destruct population.
  simpl. rewrite decide_False by by apply Qclt_not_le.
  assert (length population ≠ 0%nat) by by rewrite length_zero_iff_nil.
  match goal with
  | |- context [bisect ?a ?x ?lo ?hi] =>
      destruct (bisect_loop_Ok (hi - lo) a x lo hi) as (i & Hi & Hrange);
        [lia|rewrite accumulate_length; lia|]
  end.
  unfold bisect. rewrite Hi. simpl.
  destruct (list_getitem_Ok population i) as (x & -> & Hin); [lia|].
  simpl. by eexists _, _.
Qed.

(** ** The sampling estimator *)

Lemma sum_Z_Permutation (l k : list Z) :
  l ≡ₚ k → foldr Z.add 0%Z l = foldr Z.add 0%Z k.
Proof.
  induction 1 as [|x l k _ IH|x y l|l k m _ IH1 _ IH2]; simpl; lia.
Qed.

Lemma sum_counts_delete (d : gmap string Z) (k : string) (v : Z) :
  d !! k = Some v → sum_counts d = (v + sum_counts (delete k d))%Z.
Proof.
  intros Hk. unfold sum_counts, values.
  rewrite <- (sum_Z_Permutation ((k, v) :: map_to_list (delete k d)).*2);
    [done|].
  apply fmap_Permutation. by apply map_to_list_delete.
Qed.

Lemma sum_counts_insert (d : gmap string Z) (k : string) (v v' : Z) :
  d !! k = Some v →
  sum_counts (<[k := v']> d) = (sum_counts d - v + v')%Z.
Proof.
  intros Hk. rewrite (sum_counts_delete d k v Hk).
  rewrite (sum_counts_delete (<[k := v']> d) k v') by apply lookup_insert_eq.
  rewrite delete_insert_eq. lia.
Qed.

Lemma sum_counts_zero (d : gmap string Z) :
  (∀ p v, d !! p = Some v → v = 0%Z) → sum_counts d = 0%Z.
Proof.
  intros Hd. unfold sum_counts, values.
  assert (Forall (λ pv, pv.2 = 0%Z) (map_to_list d)) as Hall.
  { apply Forall_forall. intros [p v] Hin. simpl.
    apply (Hd p). by apply elem_of_map_to_list. }
  induction Hall as [|[p v] l Hv _ IH]; [done|].
  rewrite fmap_cons. simpl in *. rewrite IH. lia.
Qed.

Lemma incr_Ok (d : gmap string Z) (k : string) (v : Z) :
  d !! k = Some v → incr d k = Ok (<[k := (v + 1)%Z]> d).
Proof. intros Hk. unfold incr. by rewrite (getitem_Some _ _ _ Hk). Qed.

Lemma incr_counted (corpus : gmap string (gset string)) (d : gmap string Z)
    (k : Z) (p cur : string) (g g' : rng) :
  counted corpus k (d, cur, g) → p ∈ dom corpus →
  ∃ d', incr d p = Ok d' ∧ counted corpus (k + 1) (d', p, g').
Proof.
  intros (Hdom & _ & Hsum) Hp. simpl in *.
  assert (is_Some (d !! p)) as [v Hv] by by rewrite <- elem_of_dom, Hdom.
  eexists. split; [by apply incr_Ok|].
  split_and!; simpl.
  - rewrite dom_insert_lookup_L by done. done.
  - done.
  - rewrite (sum_counts_insert d p v) by done. lia.
Qed.

Lemma sample_step_Ok (corpus : gmap string (gset string))
    (damping_factor : Qc) (k : Z) (st : gmap string Z * string * rng) :
  links_closed corpus → counted corpus k st →
  ∃ st', sample_step corpus damping_factor st = Ok st' ∧
    counted corpus (k + 1) st'.
Proof.
  intros Hclosed Hst. destruct st as [[d cur] g].
  pose proof Hst as (Hdom & Hcur & Hsum). simpl in *.
  apply elem_of_dom in Hcur as [links Hlinks].
  destruct (transition_model_total corpus cur links damping_factor)
    as (dist & Hrun & Hdist & Htotal); [done|by eapply Hclosed|].
  destruct (choices_Ok g (keys dist) (values dist))
    as (next & g' & Hpick & Hin).
  - apply keys_nonempty. intros ->. rewrite dom_empty_L in Hdist.
    symmetry in Hdist. apply dom_empty_iff_L in Hdist. by subst corpus.
  - by rewrite length_keys, length_values.
  - fold (sum_values dist). by rewrite Htotal.
  - unfold sample_step. rewrite Hrun. simpl. rewrite Hpick. simpl.
    destruct (incr_counted corpus d k next cur g g') as (d' & Hincr & Hinv);
      [done|by rewrite <- Hdist, <- elem_of_keys_dom|].
    rewrite Hincr. simpl. by eexists.
Qed.

Lemma sample_loop_Ok (corpus : gmap string (gset string))
    (damping_factor : Qc) (rounds : list nat) (k : Z)
    (st : gmap string Z * string * rng) :
  links_closed corpus → counted corpus k st →
  ∃ st', foldlM (λ st _, sample_step corpus damping_factor st) st rounds
         = Ok st' ∧
    counted corpus (k + Z.of_nat (length rounds)) st'.
Proof.
  intros Hclosed. revert k st.
  induction rounds as [|r rounds IH]; intros k st Hst.
  - exists st. split; [done|]. by rewrite Z.add_0_r.
  - destruct (sample_step_Ok corpus damping_factor k st) as (st1 & Hrun & Hst1);
      [done..|].
    destruct (IH (k + 1)%Z st1 Hst1) as (st' & Hloop & Hst').
    exists st'. split.
    + cbn [foldlM]. rewrite Hrun. done.
    + replace (k + Z.of_nat (length (r :: rounds)))%Z
        with (k + 1 + Z.of_nat (length rounds))%Z by (simpl; lia). done.
Qed.

(** The first sample (lines 96-100). *)
Lemma first_sample_Ok (g : rng) (corpus : gmap string (gset string)) :
  corpus ≠ ∅ →
  ∃ d0 cur g1 d1,
    dict_comp (λ p, Ok 0%Z) (keys corpus) = Ok d0 ∧
    choice g (keys corpus) = Ok (cur, g1) ∧
    incr d0 cur = Ok d1 ∧
    counted corpus 1 (d1, cur, g1).
Proof.
  intros Hne.
  destruct (dict_comp_pure (λ p, Ok 0%Z) (λ _, 0%Z) (keys corpus))
    as (d0 & Hd0 & Hl0); [done|].
  destruct (choice_Ok g (keys corpus)) as (cur & g1 & Hpick & Hin);
    [by apply keys_nonempty|].
  apply elem_of_keys_dom in Hin.
  destruct (incr_counted corpus d0 0 cur cur g g1) as (d1 & Hincr & Hinv);
    [|done|by exists d0, cur, g1, d1].
  split_and!; simpl; [exact (dom_of_lookups _ _ _ Hl0)|done|].
  apply sum_counts_zero. intros p v. rewrite Hl0. case_decide; congruence.
Qed.

Lemma sample_counts_Ok (g : rng) (corpus : gmap string (gset string))
    (damping_factor : Qc) (n : Z) :
  corpus ≠ ∅ → links_closed corpus →
  ∃ counts, sample_counts g corpus damping_factor n = Ok counts ∧
    dom counts = dom corpus ∧
    sum_counts counts = (1 + Z.of_nat (Z.to_nat (n - 1)))%Z.
Proof.
  intros Hne Hclosed.
  destruct (first_sample_Ok g corpus Hne)
    as (d0 & cur & g1 & d1 & Hd0 & Hpick & Hincr & Hinv).
  destruct (sample_loop_Ok corpus damping_factor (seq 0 (Z.to_nat (n - 1)))
              1 (d1, cur, g1)) as ([[d' cur'] g'] & Hloop & Hinv'); [done..|].
  exists d'. unfold sample_counts.
  rewrite Hd0. simpl. rewrite Hpick. simpl. rewrite Hincr. simpl.
  rewrite Hloop. simpl. rewrite length_seq in Hinv'.
  by destruct Hinv' as (? & _ & ?).
Qed.

Lemma sum_over_counts (corpus : gmap string (gset string))
    (counts : gmap string Z) :
  dom counts = dom corpus →
  sum_over (keys corpus) (λ p, Qc_of_Z (count counts p))
  = Qc_of_Z (sum_counts counts).
Proof.
  intros Hdom.
  rewrite <- (sum_over_Permutation (keys counts)) by by apply keys_Permutation.
  unfold sum_over, sum_counts, keys, values.
  assert (Forall (λ pv, counts !! pv.1 = Some pv.2) (map_to_list counts))
    as Hall.
  { apply Forall_forall. intros [p v] Hin. by apply elem_of_map_to_list. }
  induction Hall as [|[p v] l Hv _ IH]; [symmetry; apply Z2Qc_inj_0|].
  rewrite !fmap_cons. simpl in *. rewrite IH, Z2Qc_inj_add.
  unfold count. by rewrite Hv.
Qed.

Lemma ranks_of_counts (corpus : gmap string (gset string))
    (counts : gmap string Z) (n : Z) :
  dom counts = dom corpus → n ≠ 0%Z →
  ∃ ranks,
    dict_comp (λ p, c ← getitem counts p; truediv (Qc_of_Z c) (Qc_of_Z n))
      (keys corpus) = Ok ranks ∧
    ∀ p, ranks !! p = if decide (p ∈ keys corpus)
                      then Some (Qc_of_Z (count counts p) / Qc_of_Z n)
                      else None.
Proof.
  intros Hdom Hn. apply dict_comp_pure. intros p Hp.
  assert (is_Some (counts !! p)) as [c Hc].
  { by rewrite <- elem_of_dom, Hdom, <- elem_of_keys_dom. }
  unfold count. rewrite (getitem_Some _ _ _ Hc), Hc. simpl.
  apply truediv_Ok. by rewrite <- Z2Qc_inj_0, Z2Qc_inj_iff.
Qed.

(** C7: on a non-empty graph whose links all point to pages of the graph,
    for every damping factor (those in [0,1] included), every positive
    sample count n and every stream of raw random outputs, the sampling
    estimator raises nothing, its visit counters sum to exactly n, every
    page's rank is its counter divided by n, and the ranks sum to exactly
    1. *)
Theorem sample_pagerank_sums_to_one (g : rng)
    (corpus : gmap string (gset string)) (damping_factor : Qc) (n : Z) :
  corpus ≠ ∅ → links_closed corpus → (0 < n)%Z →
  ∃ counts ranks,
    sample_counts g corpus damping_factor n = Ok counts ∧
    sum_counts counts = n ∧
    sample_pagerank g corpus damping_factor n = Ok ranks ∧
    dom ranks = dom corpus ∧
    (∀ p, p ∈ dom corpus →
       ∃ c, counts !! p = Some c ∧
            ranks !! p = Some (Qc_of_Z c / Qc_of_Z n)) ∧
    sum_values ranks = 1.
Proof.
  intros Hne Hclosed Hn.
  destruct (sample_counts_Ok g corpus damping_factor n)
    as (counts & Hcounts & Hdom & Hsum); [done..|].
  destruct (ranks_of_counts corpus counts n) as (ranks & Hranks & Hlookup);
    [done|lia|].
  assert (sum_counts counts = n) as Hsum' by lia.
  exists counts, ranks. split_and!; [done..| | | |].
  - unfold sample_pagerank. by rewrite Hcounts.
  - exact (dom_of_lookups _ _ _ Hlookup).
  - intros p Hp.
    assert (is_Some (counts !! p)) as [c Hc] by by rewrite <- elem_of_dom, Hdom.
    exists c. split; [done|].
    rewrite Hlookup, decide_True by by apply elem_of_keys_dom.
    unfold count. by rewrite Hc.
  - rewrite (sum_values_over_corpus _ _ _ Hlookup).
    rewrite (sum_over_ext _ _
      (λ p, / Qc_of_Z n * Qc_of_Z (count counts p)))
      by (intros; unfold Qcdiv; ring).
    rewrite sum_over_scale, sum_over_counts, Hsum' by done.
    apply Qcmult_inv_l. rewrite <- Z2Qc_inj_0, Z2Qc_inj_iff. lia.
Qed.

Lemma sample_pagerank_sums_to_one_witness :
  ∃ counts ranks,
    sample_counts sample_rng a_to_b d85 10 = Ok counts ∧
    sum_counts counts = 10%Z ∧
    sample_pagerank sample_rng a_to_b d85 10 = Ok ranks ∧
    dom ranks = dom a_to_b ∧
    (∀ p, p ∈ dom a_to_b →
       ∃ c, counts !! p = Some c ∧
            ranks !! p = Some (Qc_of_Z c / Qc_of_Z 10)) ∧
    sum_values ranks = 1.
Proof.
  apply (sample_pagerank_sums_to_one sample_rng a_to_b d85 10).
  - apply (bool_decide_unpack _). vm_compute. exact I.
  - apply (bool_decide_unpack _). vm_compute. exact I.
  - lia.
Defined.

(** ** Which exceptions the estimators can raise *)

Lemma builtin_Ok {A : Type} (a : A) : builtin_only (Ok a).
Proof. by intros name. Qed.

Lemma builtin_bind {A B : Type} (m : result A) (f : A → result B) :
  builtin_only m → (∀ a, builtin_only (f a)) → builtin_only (m ≫= f).
Proof.
  intros Hm Hf. destruct m as [a|e]; [apply Hf|].
  intros name [= ->]. by apply (Hm name).
Qed.

Lemma builtin_foldlM {A B : Type} (f : B → A → result B) (b : B)
    (l : list A) :
  (∀ b x, builtin_only (f b x)) → builtin_only (foldlM f b l).
Proof.
  intros Hf. revert b. induction l as [|x l IH]; intros b; simpl.
  - apply builtin_Ok.
  - by apply builtin_bind.
Qed.

Lemma builtin_getitem {V : Type} (m : gmap string V) (k : string) :
  builtin_only (getitem m k).
Proof. unfold getitem. by destruct (m !! k); intros name. Qed.

Lemma builtin_list_getitem {A : Type} (l : list A) (i : nat) :
  builtin_only (list_getitem l i).
Proof. unfold list_getitem. by destruct (l !! i); intros name. Qed.

Lemma builtin_truediv (a b : Qc) : builtin_only (truediv a b).
Proof. unfold truediv. by case_decide; intros name. Qed.

Ltac builtin_step :=
  lazymatch goal with
  | |- builtin_only (Ok _) => apply builtin_Ok
  | |- builtin_only (Raise _) => by intros ?
  | |- builtin_only (getitem _ _) => apply builtin_getitem
  | |- builtin_only (list_getitem _ _) => apply builtin_list_getitem
  | |- builtin_only (truediv _ _) => apply builtin_truediv
  | |- builtin_only (foldlM _ _ _) => apply builtin_foldlM; intros ? ?
  | |- builtin_only (_ ≫= _) => apply builtin_bind; [|intros ?]
  | |- builtin_only (if decide _ then _ else _) => case_decide
  | |- builtin_only (match ?x with _ => _ end) => destruct x
  end.

Lemma builtin_dict_comp {V : Type} (f : string → result V)
    (ks : list string) :
  (∀ p, builtin_only (f p)) → builtin_only (dict_comp f ks).
Proof. intros Hf. unfold dict_comp. repeat builtin_step. apply Hf. Qed.

Lemma builtin_transition_model (corpus : gmap string (gset string))
    (page : string) (damping_factor : Qc) :
  builtin_only (transition_model corpus page damping_factor).
Proof.
  unfold transition_model. repeat builtin_step.
  apply builtin_dict_comp. intros p. builtin_step.
Qed.

Lemma builtin_bisect_loop (rounds : nat) (a : list Qc) (x : Qc)
    (lo hi : nat) :
  builtin_only (bisect_loop rounds a x lo hi).
Proof.
  revert lo hi. induction rounds as [|rounds IH]; intros lo hi;
    cbn [bisect_loop]; repeat builtin_step; apply IH.
Qed.

Lemma builtin_choice {A : Type} (g : rng) (seq : list A) :
  builtin_only (choice g seq).
Proof. unfold choice. repeat builtin_step. Qed.

Lemma builtin_choices {A : Type} (g : rng) (population : list A)
    (weights : list Qc) :
  builtin_only (choices g population weights).
Proof.
  unfold choices. repeat builtin_step. apply builtin_bisect_loop.
Qed.

Lemma builtin_incr (d : gmap string Z) (k : string) :
  builtin_only (incr d k).
Proof. unfold incr. repeat builtin_step. Qed.

Lemma builtin_sample_counts (g : rng) (corpus : gmap string (gset string))
    (damping_factor : Qc) (n : Z) :
  builtin_only (sample_counts g corpus damping_factor n).
Proof.
  unfold sample_counts. builtin_step.
  { apply builtin_dict_comp. intros p. builtin_step. }
  builtin_step; [apply builtin_choice|]. repeat builtin_step.
  - apply builtin_incr.
  - unfold sample_step. repeat builtin_step.
    + apply builtin_transition_model.
    + apply builtin_choices.
    + apply builtin_incr.
Qed.

Lemma builtin_sample_pagerank (g : rng) (corpus : gmap string (gset string))
    (damping_factor : Qc) (n : Z) :
  builtin_only (sample_pagerank g corpus damping_factor n).
Proof.
  unfold sample_pagerank. builtin_step; [apply builtin_sample_counts|].
  apply builtin_dict_comp. intros p. repeat builtin_step.
Qed.

(** ** The empty graph *)

Lemma sample_pagerank_empty (g : rng) (damping_factor : Qc) (n : Z) :
  sample_pagerank g ∅ damping_factor n = Raise IndexError.
Proof. unfold sample_pagerank, sample_counts. by rewrite keys_empty. Qed.

Lemma loop_body_empty (damping_factor : Qc) (st : iter_state) :
  loop_body ∅ damping_factor st
  = Ok {| d := new_d st; new_d := new_d st;
          pr_value_change := pr_value_change st |}.
Proof. unfold loop_body, sweep. by rewrite keys_empty. Qed.

Lemma while_loop_empty (damping_factor : Qc) (fuel : nat) (st : iter_state) :
  loop_continues st = true →
  while_loop fuel ∅ damping_factor st = None.
Proof.
  revert st. induction fuel as [|fuel IH]; intros st Hst; [done|].
  cbn [while_loop]. rewrite Hst, loop_body_empty. by apply IH.
Qed.

Lemma iterate_pagerank_empty (fuel : nat) (damping_factor : Qc) :
  iterate_pagerank fuel ∅ damping_factor = None.
Proof.
  unfold iterate_pagerank, initial_state. rewrite keys_empty. simpl.
  by apply while_loop_empty.
Qed.

(** C8, as the code has it: on the empty graph the sampling estimator fails
    with Python's IndexError, raised by the uniform first pick from the empty
    list of pages, for every damping factor, sample count and random source;
    the iterative estimator raises nothing: no number of evaluations of its
    loop condition brings it to a result. *)
Theorem empty_corpus_behaviour :
  (∀ g damping_factor n,
     sample_pagerank g ∅ damping_factor n = Raise IndexError) ∧
  (∀ fuel damping_factor, iterate_pagerank fuel ∅ damping_factor = None).
Proof.
  split.
  - apply sample_pagerank_empty.
  - apply iterate_pagerank_empty.
Qed.

(** On the empty graph neither estimator fails with an EmptyCorpus error. *)
Lemma empty_corpus_no_EmptyCorpus_error :
  sample_pagerank sample_rng ∅ d85 10000 ≠ Raise (Custom "EmptyCorpus") ∧
  ¬ ∃ fuel, iterate_pagerank fuel ∅ d85
            = Some (Raise (Custom "EmptyCorpus")).
Proof.
  split.
  - by rewrite sample_pagerank_empty.
  - intros [fuel Hrun]. by rewrite iterate_pagerank_empty in Hrun.
Qed.

(** ** Configurations outside the documented ranges *)

Lemma dict_comp_raises {V : Type} (f : string → result V) (p : string)
    (ks : list string) (e : exn) :
  f p = Raise e → dict_comp f (p :: ks) = Raise e.
Proof. intros Hp. unfold dict_comp. simpl. by rewrite Hp. Qed.

Lemma sample_counts_no_loop (g : rng) (corpus : gmap string (gset string))
    (damping_factor : Qc) (n : Z) :
  corpus ≠ ∅ → (n ≤ 1)%Z →
  ∃ counts, sample_counts g corpus damping_factor n = Ok counts ∧
    dom counts = dom corpus ∧ sum_counts counts = 1%Z.
Proof.
  intros Hne Hn.
  destruct (first_sample_Ok g corpus Hne)
    as (d0 & cur & g1 & d1 & Hd0 & Hpick & Hincr & Hdom & _ & Hsum).
  exists d1. unfold sample_counts.
  rewrite Hd0. simpl. rewrite Hpick. simpl. rewrite Hincr. simpl.
  by replace (Z.to_nat (n - 1)) with 0%nat by lia.
Qed.

(** C9, as the code has it: no estimator validates its configuration, and
    none ever fails with an InvalidConfiguration error (or any other error of
    the program's own).  The convergence threshold is the constant 0.001, not
    an input.  The iterative estimator raises nothing for any damping
    factor.  The sampling estimator, given a sample count n <= 0 on a
    non-empty graph, first makes and counts the uniform pick; it then fails
    with ZeroDivisionError when n = 0 and returns counter/n for every page
    when n < 0. *)
Theorem configuration_is_not_validated :
  (∀ st, loop_continues st
         = bool_decide (Q2Qc (1 # 1000) < pr_value_change st)) ∧
  (∀ g corpus damping_factor n name,
     sample_pagerank g corpus damping_factor n ≠ Raise (Custom name)) ∧
  (∀ fuel corpus damping_factor r,
     iterate_pagerank fuel corpus damping_factor = Some r →
     ∃ ranks, r = Ok ranks) ∧
  (∀ g corpus damping_factor n,
     corpus ≠ ∅ → (n ≤ 0)%Z →
     ∃ counts,
       sample_counts g corpus damping_factor n = Ok counts ∧
       sum_counts counts = 1%Z ∧
       (n = 0%Z →
        sample_pagerank g corpus damping_factor n = Raise ZeroDivisionError) ∧
       ((n < 0)%Z →
        ∃ ranks, sample_pagerank g corpus damping_factor n = Ok ranks ∧
          ∀ p, p ∈ dom corpus →
            ranks !! p = Some (Qc_of_Z (count counts p) / Qc_of_Z n))).
Proof.
  split_and!.
  - done.
  - intros g corpus damping_factor n. apply builtin_sample_pagerank.
  - intros fuel corpus damping_factor r Hrun.
    destruct (iterate_pagerank_returns _ _ _ _ Hrun) as (st & _ & _ & ->).
    by eexists.
  - intros g corpus damping_factor n Hne Hn.
    destruct (sample_counts_no_loop g corpus damping_factor n)
      as (counts & Hcounts & Hdom & Hsum); [done|lia|].
    exists counts. split_and!; [done..| |].
    + intros ->. unfold sample_pagerank. rewrite Hcounts. simpl.
      destruct (keys corpus) as [|p ks] eqn:Hkeys;
        [by apply keys_nonempty in Hkeys|].
      apply dict_comp_raises.
      assert (is_Some (counts !! p)) as [c Hc].
      { rewrite <- elem_of_dom, Hdom, <- elem_of_keys_dom, Hkeys. by left. }
      rewrite (getitem_Some _ _ _ Hc). simpl.
      rewrite Z2Qc_inj_0. apply truediv_0.
    + intros Hneg.
      destruct (ranks_of_counts corpus counts n) as (ranks & Hranks & Hlookup);
        [done|lia|].
      exists ranks. split.
      * unfold sample_pagerank. by rewrite Hcounts.
      * intros p Hp. rewrite Hlookup, decide_True; [done|].
        by apply elem_of_keys_dom.
Qed.

(** With the damping factor 2, and with the sample counts -1 and 0, the
    estimators do not fail with an InvalidConfiguration error: the first two
    runs return ranks, the third fails with ZeroDivisionError after the first
    pick. *)
Lemma invalid_configuration_not_rejected :
  (∃ ranks, iterate_pagerank 2 lone (Q2Qc 2) = Some (Ok ranks) ∧
            rank ranks "A" = 1) ∧
  (∃ ranks, sample_pagerank sample_rng lone d85 (-1) = Ok ranks ∧
            rank ranks "A" = - 1) ∧
  sample_pagerank sample_rng lone d85 0 = Raise ZeroDivisionError.
Proof.
  split_and!.
  - destruct (iterate_pagerank 2 lone (Q2Qc 2)) as [[ranks|e]|] eqn:Hrun;
      [|by vm_compute in Hrun..].
    exists ranks. split; [reflexivity|].
    apply Qc_is_canon. vm_compute in Hrun. injection Hrun as <-. reflexivity.
  - destruct (sample_pagerank sample_rng lone d85 (-1)) as [ranks|e] eqn:Hrun;
      [|by vm_compute in Hrun].
    exists ranks. split; [reflexivity|].
    apply Qc_is_canon. vm_compute in Hrun. injection Hrun as <-. reflexivity.
  - vm_compute. reflexivity.
Qed.

Lemma configuration_is_not_validated_witness :
  ∃ counts, sample_counts sample_rng lone d85 0 = Ok counts ∧
    sum_counts counts = 1%Z ∧
    sample_pagerank sample_rng lone d85 0 = Raise ZeroDivisionError.
Proof.
  destruct configuration_is_not_validated as (_ & _ & _ & Hsample).
  destruct (Hsample sample_rng lone d85 0%Z)
    as (counts & Hcounts & Hsum & Hzero & _).
  - apply (bool_decide_unpack _). vm_compute. exact I.
  - lia.
  - exists counts. split; [exact Hcounts|]. split; [exact Hsum|].
    apply Hzero. reflexivity.
Defined.

(** ** The scenarios of the specification, run *)

Example iterate_two_cycle :
  ∃ ranks, iterate_pagerank 2 two_cycle d85 = Some (Ok ranks) ∧
    rank ranks "A" = Q2Qc (1 # 2) ∧ rank ranks "B" = Q2Qc (1 # 2).
Proof.
  destruct (iterate_pagerank 2 two_cycle d85) as [[ranks|e]|] eqn:Hrun;
    [|by vm_compute in Hrun..].
  exists ranks. split; [reflexivity|].
  vm_compute in Hrun. injection Hrun as <-.
  split; apply Qc_is_canon; reflexivity.
Qed.

Example iterate_three_cycle :
  ∃ ranks, iterate_pagerank 2 three_cycle d85 = Some (Ok ranks) ∧
    rank ranks "A" = Q2Qc (1 # 3) ∧ rank ranks "B" = Q2Qc (1 # 3) ∧
    rank ranks "C" = Q2Qc (1 # 3).
Proof.
  destruct (iterate_pagerank 2 three_cycle d85) as [[ranks|e]|] eqn:Hrun;
    [|by vm_compute in Hrun..].
  exists ranks. split; [reflexivity|].
  vm_compute in Hrun. injection Hrun as <-.
  split_and!; apply Qc_is_canon; reflexivity.
Qed.

Example estimators_lone :
  (∃ ranks, iterate_pagerank 2 lone d85 = Some (Ok ranks) ∧
            rank ranks "A" = 1) ∧
  (∃ ranks, sample_pagerank sample_rng lone d85 5 = Ok ranks ∧
            rank ranks "A" = 1).
Proof.
  split.
  - destruct (iterate_pagerank 2 lone d85) as [[ranks|e]|] eqn:Hrun;
      [|by vm_compute in Hrun..].
    exists ranks. split; [reflexivity|].
    vm_compute in Hrun. injection Hrun as <-. apply Qc_is_canon; reflexivity.
  - destruct (sample_pagerank sample_rng lone d85 5) as [ranks|e] eqn:Hrun;
      [|by vm_compute in Hrun].
    exists ranks. split; [reflexivity|].
    vm_compute in Hrun. injection Hrun as <-. apply Qc_is_canon; reflexivity.
Qed.

(** Without the invariant that links stay inside the graph, the transition
    model's probabilities need not sum to 1: a page whose only link leaves
    the graph. *)
Example transition_model_open_graph :
  ∃ dist, transition_model (<["A" := {["Z"]}]> ∅) "A" d85 = Ok dist ∧
    sum_values dist = Q2Qc (15 # 100).
Proof.
  destruct (transition_model (<["A" := {["Z"]}]> ∅) "A" d85)
    as [dist|e] eqn:Hrun; [|by vm_compute in Hrun].
  exists dist. split; [reflexivity|].
  vm_compute in Hrun. injection Hrun as <-. apply Qc_is_canon; reflexivity.
Qed.

(** * Further properties of the code *)

(** ** Building the corpus *)

(** ** Names ending in ".html" *)

Lemma substring_whole (s : string) :
  String.substring 0 (String.length s) s = s.
Proof. induction s as [|c s IH]; simpl; by rewrite ?IH. Qed.

Lemma substring_suffix (pre suf : string) :
  String.substring (String.length pre) (String.length suf) (pre +:+ suf)
  = suf.
Proof. induction pre as [|c pre IH]; simpl; [apply substring_whole|done]. Qed.

Lemma string_length_app (s t : string) :
  String.length (s +:+ t) = (String.length s + String.length t)%nat.
Proof. induction s as [|c s IH]; simpl; by rewrite ?IH. Qed.

Lemma substring_split (s : string) (k : nat) :
  (k ≤ String.length s)%nat →
  s = String.substring 0 k s
      +:+ String.substring k (String.length s - k) s.
Proof.
  revert k. induction s as [|c s IH]; intros k Hk.
  - by destruct k.
  - destruct k as [|k].
    + simpl. by rewrite substring_whole.
    + change (String c s
              = String c (String.substring 0 k s
                          +:+ String.substring k (String.length s - k) s)).
      f_equal. apply IH. simpl in Hk. lia.
Qed.

Lemma endswith_iff (s suffix : string) :
  endswith s suffix = true ↔ ∃ stem, s = stem +:+ suffix.
Proof.
  unfold endswith. rewrite andb_true_iff, Nat.leb_le, String.eqb_eq. split.
  - intros [Hle Hsuf].
    exists (String.substring 0 (String.length s - String.length suffix) s).
    etrans;
      [apply (substring_split s (String.length s - String.length suffix));
       lia|].
    f_equal.
    replace (String.length s - (String.length s - String.length suffix))%nat
      with (String.length suffix) by lia.
    exact Hsuf.
  - intros [stem ->]. rewrite string_length_app. split; [lia|].
    replace (String.length stem + String.length suffix
             - String.length suffix)%nat
      with (String.length stem) by lia.
    apply substring_suffix.
Qed.

Section crawl_properties.

Context (findall : string → list string).

Lemma crawl_extract_other (directory : list (string * string))
    (pages : gmap string (gset string)) (f : string) :
  f ∉ directory.*1 →
  foldl (crawl_extract findall) pages directory !! f = pages !! f.
Proof.
  revert pages. induction directory as [|[f' c'] directory IH];
    intros pages Hf; [done|].
  rewrite fmap_cons, not_elem_of_cons in Hf. destruct Hf as [Hne Hf].
  simpl. rewrite IH by done.
  destruct (endswith f' ".html"); simpl; [|done].
  by rewrite lookup_insert_ne.
Qed.

Lemma crawl_extract_dom (directory : list (string * string))
    (pages : gmap string (gset string)) (f : string) :
  f ∈ dom (foldl (crawl_extract findall) pages directory)
  ↔ f ∈ dom pages ∨ (endswith f ".html" = true ∧ f ∈ directory.*1).
Proof.
  revert pages. induction directory as [|[f' c'] directory IH]; intros pages.
  - simpl. split; [by left|]. intros [?|[_ Hin]]; [done|].
    by apply not_elem_of_nil in Hin.
  - cbn [foldl]. rewrite IH, fmap_cons, elem_of_cons.
    unfold crawl_extract. cbn [fst].
    destruct (endswith f' ".html") eqn:Hhtml; cbn [negb].
    + rewrite dom_insert_L, elem_of_union, elem_of_singleton.
      split; [intros [[->|?]|[? ?]]|intros [?|[? [->|?]]]]; eauto.
    + split; [intros [?|[? ?]]|intros [?|[Hf [->|?]]]]; eauto.
      congruence.
Qed.

Lemma crawl_extract_no_self (directory : list (string * string))
    (pages : gmap string (gset string)) :
  map_Forall (λ f links, f ∉ links) pages →
  map_Forall (λ f links, f ∉ links)
    (foldl (crawl_extract findall) pages directory).
Proof.
  revert pages. induction directory as [|[f' c'] directory IH];
    intros pages Hpages; [done|].
  cbn [foldl]. apply IH. unfold crawl_extract.
  destruct (endswith f' ".html"); cbn [negb]; [|done].
  apply map_Forall_insert_2; [|done]. set_solver.
Qed.

Lemma crawl_extract_lookup (directory : list (string * string))
    (pages : gmap string (gset string)) (f c : string) :
  NoDup directory.*1 → (f, c) ∈ directory → endswith f ".html" = true →
  foldl (crawl_extract findall) pages directory !! f
  = Some (list_to_set (findall c) ∖ {[f]}).
Proof.
  revert pages. induction directory as [|[f' c'] directory IH];
    intros pages Hnodup Hin Hhtml.
  - by apply not_elem_of_nil in Hin.
  - rewrite fmap_cons in Hnodup. apply NoDup_cons in Hnodup as [Hf' Hnodup].
    apply elem_of_cons in Hin as [[= <- <-]|Hin].
    + simpl. rewrite crawl_extract_other by done.
      rewrite Hhtml. simpl. by rewrite lookup_insert_eq.
    + simpl. by apply IH.
Qed.

(** The second loop keeps the keys and replaces every link set by its
    links to keys. *)
Lemma crawl_restrict_loop (ks : list string)
    (pages : gmap string (gset string)) :
  NoDup ks → (∀ k, k ∈ ks → k ∈ dom pages) →
  ∃ pages', foldlM crawl_restrict pages ks = Ok pages' ∧
    dom pages' = dom pages ∧
    ∀ f, pages' !! f
         = if decide (f ∈ ks)
           then filter (λ link, link ∈ dom pages) <$> pages !! f
           else pages !! f.
Proof.
  revert pages. induction ks as [|k ks IH]; intros pages Hnodup Hks.
  - exists pages. split_and!; [done..|]. intros f.
    by rewrite decide_False by apply not_elem_of_nil.
  - apply NoDup_cons in Hnodup as [Hk Hnodup].
    assert (k ∈ dom pages) as Hkdom by (apply Hks; by left).
    pose proof Hkdom as [links Hlinks]%elem_of_dom.
    set (pages1 := <[k := filter (λ link, link ∈ dom pages) links]> pages).
    assert (dom pages1 = dom pages) as Hdom1.
    { unfold pages1. rewrite dom_insert_L. set_solver. }
    destruct (IH pages1) as (pages' & Hrun & Hdom & Hlookup); [done| |].
    { intros k' Hk'. rewrite Hdom1. apply Hks. by right. }
    exists pages'. split_and!.
    + cbn [foldlM]. unfold crawl_restrict at 2.
      rewrite (getitem_Some _ _ _ Hlinks). exact Hrun.
    + by rewrite Hdom, Hdom1.
    + intros f. rewrite Hlookup, Hdom1. unfold pages1.
      destruct (decide (f = k)) as [->|Hne].
      * rewrite decide_False by done. rewrite decide_True by by left.
        by rewrite lookup_insert_eq, Hlinks.
      * rewrite lookup_insert_ne by done.
        destruct (decide (f ∈ ks)) as [Hin|Hin].
        -- by rewrite decide_True by by right.
        -- rewrite decide_False; [done|]. rewrite elem_of_cons. by intros [?|?].
Qed.

(** What [crawl] returns, in terms of the dictionary its first loop
    builds. *)
Lemma crawl_Ok (directory : list (string * string)) :
  ∃ pages, crawl findall directory = Ok pages ∧
    dom pages = dom (foldl (crawl_extract findall) ∅ directory) ∧
    ∀ f, pages !! f
         = filter (λ link,
             link ∈ dom (foldl (crawl_extract findall) ∅ directory))
           <$> foldl (crawl_extract findall) ∅ directory !! f.
Proof.
  set (pages0 := foldl (crawl_extract findall) ∅ directory).
  destruct (crawl_restrict_loop (keys pages0) pages0)
    as (pages & Hrun & Hdom & Hlookup).
  { apply NoDup_keys. }
  { intros k. by rewrite elem_of_keys_dom. }
  exists pages. split_and!; [|done|].
  - unfold crawl. fold pages0. by rewrite Hrun.
  - intros f. rewrite Hlookup. case_decide as Hf; [done|].
    rewrite elem_of_keys_dom in Hf. apply not_elem_of_dom in Hf.
    by rewrite Hf.
Qed.

(** X1: [crawl] raises nothing from its dictionary operations, and the
    pages of the corpus it returns are exactly the listed names of the form
    stem + ".html". *)
Theorem crawl_pages (directory : list (string * string)) :
  ∃ pages, crawl findall directory = Ok pages ∧
    ∀ f, f ∈ dom pages
         ↔ (∃ stem, f = stem +:+ ".html") ∧ f ∈ directory.*1.
Proof.
  destruct (crawl_Ok directory) as (pages & Hrun & Hdom & _).
  exists pages. split; [done|]. intros f.
  rewrite <- endswith_iff, Hdom, crawl_extract_dom, dom_empty_L.
  split; [intros [Hf|?]; [by apply not_elem_of_empty in Hf|done]|by right].
Qed.

(** X2: in a directory with distinct names, the links [crawl] records for a
    page are exactly the links found in the page's text that are not the
    page itself and are pages of the corpus. *)
Theorem crawl_links (directory : list (string * string)) (f c : string) :
  NoDup directory.*1 → (f, c) ∈ directory → endswith f ".html" = true →
  ∃ pages links, crawl findall directory = Ok pages ∧
    pages !! f = Some links ∧
    ∀ link, link ∈ links
            ↔ link ∈ findall c ∧ link ≠ f ∧ link ∈ dom pages.
Proof.
  intros Hnodup Hin Hhtml.
  destruct (crawl_Ok directory) as (pages & Hrun & Hdom & Hlookup).
  eexists pages, _. split_and!; [done| |].
  - by rewrite Hlookup, (crawl_extract_lookup _ _ f c).
  - intros link. rewrite elem_of_filter, elem_of_difference,
      elem_of_list_to_set, elem_of_singleton, Hdom. naive_solver.
Qed.

(** X3: the corpus [crawl] returns satisfies both invariants of the data
    model: every link points to a page of the corpus, and no page links to
    itself. *)
Theorem crawl_invariants (directory : list (string * string)) :
  ∃ pages, crawl findall directory = Ok pages ∧
    links_closed pages ∧ no_self_links pages.
Proof.
  destruct (crawl_Ok directory) as (pages & Hrun & Hdom & Hlookup).
  exists pages. split; [done|]. split.
  - intros f links. rewrite Hlookup, fmap_Some.
    intros (links0 & _ & ->) link. rewrite elem_of_filter, Hdom. by intros [? _].
  - intros f links. rewrite Hlookup, fmap_Some.
    intros (links0 & Hlinks0 & ->). rewrite elem_of_filter.
    intros [_ Hself].
    exact (crawl_extract_no_self directory ∅ (map_Forall_empty _)
             f links0 Hlinks0 Hself).
Qed.

End crawl_properties.

Lemma crawl_links_witness :
  ∃ pages links, crawl words sample_directory = Ok pages ∧
    pages !! "1.html" = Some links ∧
    ∀ link, link ∈ links
            ↔ link ∈ words "2.html 3.html 1.html gone.html" ∧
              link ≠ "1.html" ∧ link ∈ dom pages.
Proof.
  apply (crawl_links words sample_directory "1.html").
  - apply (bool_decide_unpack _). vm_compute. exact I.
  - apply (bool_decide_unpack _). vm_compute. exact I.
  - reflexivity.
Defined.

(** ** Sums of absolute values *)

Lemma sum_over_le (ks : list string) (f g : string → Qc) :
  (∀ p, p ∈ ks → f p <= g p) → sum_over ks f <= sum_over ks g.
Proof.
  induction ks as [|p ks IH]; intros Hfg.
  - rewrite !sum_over_nil. apply Qcle_refl.
  - rewrite !sum_over_cons. apply Qcplus_le_compat.
    + apply Hfg. by left.
    + apply IH. intros q Hq. apply Hfg. by right.
Qed.

Lemma sum_over_nonneg (ks : list string) (f : string → Qc) :
  (∀ p, p ∈ ks → 0 <= f p) → 0 <= sum_over ks f.
Proof.
  intros Hf. rewrite <- (sum_over_zero ks (λ _, 0)) by done.
  by apply sum_over_le.
Qed.

Lemma sum_over_member_le (ks : list string) (f : string → Qc) (p : string) :
  (∀ q, q ∈ ks → 0 <= f q) → p ∈ ks → f p <= sum_over ks f.
Proof.
  induction ks as [|q ks IH]; intros Hf Hp.
  - by apply not_elem_of_nil in Hp.
  - rewrite sum_over_cons. apply elem_of_cons in Hp as [->|Hp].
    + rewrite <- (Qcplus_0_r (f q)) at 1.
      apply Qcplus_le_compat; [apply Qcle_refl|].
      apply sum_over_nonneg. intros r Hr. apply Hf. by right.
    + rewrite <- (Qcplus_0_l (f p)).
      apply Qcplus_le_compat; [apply Hf; by left|].
      apply IH; [|done]. intros r Hr. apply Hf. by right.
Qed.





(** ** The iterative estimator: each sweep changes less than the last *)

Section convergence.

Context (corpus : gmap string (gset string)) (damping_factor : Qc).
Hypothesis corpus_nonempty : corpus ≠ ∅.
Hypothesis corpus_closed : links_closed corpus.
Hypothesis damping_nonneg : 0 <= damping_factor.

Lemma contribution_weight (x : gmap string Qc) (p q : string) :
  contribution corpus x p q = weight corpus p q * rank x q.
Proof.
  unfold contribution, weight, Qcdiv. repeat case_decide; ring.
Qed.

Lemma weight_nonneg (p q : string) : 0 <= weight corpus p q.
Proof.
  unfold weight. apply Qcplus_nonneg_nonneg.
  - case_decide as Hp; [|apply Qcle_refl].
    apply div_nat_bounds; [|done].
    rewrite size_empty_iff_L. intros Hq. rewrite Hq in Hp.
    by apply not_elem_of_empty in Hp.
  - case_decide; [|apply Qcle_refl].
    apply div_nat_bounds; [|done]. by apply map_size_non_empty_iff.
Qed.





Hypothesis damping_below_1 : damping_factor < 1.



End convergence.

(** ** The iterative estimator: what it returns, and that it returns *)


Lemma initial_state_continues (corpus : gmap string (gset string))
    (st : iter_state) :
  initial_state corpus = Ok st → loop_continues st = true.
Proof.
  intros Hinit.
  destruct (initial_state_Ok corpus) as (d0 & n0 & Hrun & _).
  rewrite Hrun in Hinit. by injection Hinit as <-.
Qed.

(** Whatever the loop returns, having been entered with its condition true,
    is the vector the last sweep produced. *)
Lemma while_loop_last_sweep (corpus : gmap string (gset string))
    (damping_factor : Qc) (fuel : nat) (st : iter_state)
    (r : result (gmap string Qc)) :
  reachable corpus damping_factor st → loop_continues st = true →
  while_loop fuel corpus damping_factor st = Some r →
  ∃ st1 st2, reachable corpus damping_factor st1 ∧
    loop_body corpus damping_factor st1 = Ok st2 ∧
    loop_continues st2 = false ∧ r = Ok (d st2).
Proof.
  revert st. induction fuel as [|fuel IH]; intros st Hreach Hcont Hrun;
    [done|].
  cbn [while_loop] in Hrun. rewrite Hcont in Hrun.
  destruct (reachable_dom _ _ _ Hreach) as [Hd Hnew].
  destruct (loop_body_Ok corpus damping_factor st)
    as (new & change & _ & _ & Hbody & _); [done..|].
  rewrite Hbody in Hrun.
  set (st' := {| d := new; new_d := new; pr_value_change := change |}) in *.
  destruct (loop_continues st') eqn:Hcont'.
  - apply (IH st'); [by eapply reachable_step|done..].
  - destruct fuel as [|fuel]; [done|]. cbn [while_loop] in Hrun.
    rewrite Hcont' in Hrun. injection Hrun as <-. by exists st, st'.
Qed.

Lemma iterate_pagerank_last_sweep (corpus : gmap string (gset string))
    (damping_factor : Qc) (fuel : nat) (r : result (gmap string Qc)) :
  iterate_pagerank fuel corpus damping_factor = Some r →
  ∃ st1 st2, reachable corpus damping_factor st1 ∧
    loop_body corpus damping_factor st1 = Ok st2 ∧
    loop_continues st2 = false ∧ r = Ok (d st2).
Proof.
  unfold iterate_pagerank.
  destruct (initial_state corpus) as [st|e] eqn:Hinit.
  - apply while_loop_last_sweep; [by apply reachable_initial|].
    by eapply initial_state_continues.
  - destruct (initial_state_Ok corpus) as (d0 & n0 & Hrun & _). congruence.
Qed.





(** ** The iterative estimator: the range of the ranks *)

Section rank_bounds.

Context (corpus : gmap string (gset string)) (damping_factor : Qc).
Hypothesis corpus_nonempty : corpus ≠ ∅.
Hypothesis damping_nonneg : 0 <= damping_factor.
Hypothesis damping_at_most_1 : damping_factor <= 1.

Lemma base_rank_nonneg : 0 <= (1 - damping_factor) / len corpus.
Proof.
  apply div_nat_bounds; [by apply map_size_non_empty_iff|].
  by apply (proj1 (Qcle_minus_iff damping_factor 1)).
Qed.

Lemma recurrence_at_least_base (old : gmap string Qc) (p : string) :
  (∀ q, 0 <= rank old q) →
  (1 - damping_factor) / len corpus
  <= recurrence corpus damping_factor old p.
Proof.
  intros Hold. rewrite recurrence_contribution.
  rewrite <- (Qcplus_0_r ((1 - damping_factor) / len corpus)) at 1.
  apply Qcplus_le_compat; [apply Qcle_refl|].
  apply Qcmult_nonneg_nonneg; [done|].
  apply sum_over_nonneg. intros q _. rewrite contribution_weight.
  apply Qcmult_nonneg_nonneg; [by apply weight_nonneg|done].
Qed.

Lemma rank_of_lookups (x : gmap string Qc) (h : string → Qc) :
  (∀ p, x !! p = if decide (p ∈ keys corpus) then Some (h p) else None) →
  (∀ p, p ∈ keys corpus → 0 <= h p) →
  ∀ p, 0 <= rank x p.
Proof.
  intros Hx Hh p. unfold rank. rewrite Hx.
  case_decide; simpl; [by apply Hh|apply Qcle_refl].
Qed.

Lemma reachable_nonneg (st : iter_state) :
  reachable corpus damping_factor st → ∀ p, 0 <= rank (d st) p.
Proof.
  induction 1 as [st Hinit|st st' Hreach IH _ Hbody].
  - destruct (initial_state_Ok corpus) as (d0 & n0 & Hrun & Hd0 & _).
    rewrite Hrun in Hinit. injection Hinit as <-. simpl.
    apply (rank_of_lookups _ _ Hd0). intros p _.
    apply div_nat_bounds; [by apply map_size_non_empty_iff|done].
  - destruct (reachable_dom _ _ _ Hreach) as [Hd Hnew].
    destruct (loop_body_Ok corpus damping_factor st)
      as (new & change & _ & _ & Hrun & Hlookup); [done..|].
    rewrite Hrun in Hbody. injection Hbody as <-. simpl.
    apply (rank_of_lookups _ _ Hlookup). intros p _.
    eapply Qcle_trans; [apply base_rank_nonneg|].
    by apply recurrence_at_least_base.
Qed.

End rank_bounds.

(** X8: on a non-empty graph whose links all point to pages of the graph,
    with a damping factor d in [0,1], every rank the iterative estimator
    returns lies between (1-d)/N and 1. *)
Theorem iterate_pagerank_rank_bounds (corpus : gmap string (gset string))
    (damping_factor : Qc) (fuel : nat) (ranks : gmap string Qc) :
  corpus ≠ ∅ → links_closed corpus → 0 <= damping_factor <= 1 →
  iterate_pagerank fuel corpus damping_factor = Some (Ok ranks) →
  ∀ p v, ranks !! p = Some v →
    (1 - damping_factor) / len corpus <= v ∧ v <= 1.
Proof.
  intros Hne Hclosed [Hd0 Hd1] Hrun p v Hp. split.
  - destruct (iterate_pagerank_last_sweep _ _ _ _ Hrun)
      as (st1 & st2 & Hreach & Hbody & _ & [= ->]).
    destruct (reachable_dom _ _ _ Hreach) as [Hd Hnew].
    destruct (loop_body_Ok corpus damping_factor st1)
      as (new & change & _ & _ & Hbody' & Hlookup); [done..|].
    rewrite Hbody' in Hbody. injection Hbody as <-. simpl in *.
    rewrite Hlookup in Hp. case_decide; [|done]. injection Hp as <-.
    apply recurrence_at_least_base; [done..|].
    by apply (reachable_nonneg corpus damping_factor).
  - destruct (iterate_pagerank_returns _ _ _ _ Hrun)
      as (st & Hreach & _ & [= ->]).
    destruct (reachable_dom _ _ _ Hreach) as [Hd _].
    pose proof (reachable_sum corpus damping_factor Hne Hclosed st Hreach)
      as Hsum.
    rewrite (sum_values_rank corpus) in Hsum by done.
    assert (v = rank (d st) p) as -> by (unfold rank; by rewrite Hp).
    rewrite <- Hsum.
    apply (sum_over_member_le (keys corpus) (rank (d st))).
    + intros q _. by apply (reachable_nonneg corpus damping_factor).
    + apply elem_of_keys_dom. rewrite <- Hd. by apply elem_of_dom.
Qed.

Lemma iterate_pagerank_rank_bounds_witness :
  ∃ ranks, iterate_pagerank 50 a_to_b d85 = Some (Ok ranks) ∧
    ∀ p v, ranks !! p = Some v → (1 - d85) / len a_to_b <= v ∧ v <= 1.
Proof.
  destruct (iterate_pagerank 50 a_to_b d85) as [[ranks|e]|] eqn:Hrun;
    [|by vm_compute in Hrun..].
  exists ranks. split; [reflexivity|].
  apply (iterate_pagerank_rank_bounds a_to_b d85 50 ranks).
  - apply (bool_decide_unpack _). vm_compute. exact I.
  - apply (bool_decide_unpack _). vm_compute. exact I.
  - split; apply (bool_decide_unpack _); vm_compute; exact I.
  - exact Hrun.
Defined.

(** ** The transition model: failure and positivity *)

(** X4: the transition model raises exactly when [page] is not a key of the
    corpus, and then it raises KeyError; for a key it returns a distribution
    over the keys of the corpus, for every damping factor. *)
Theorem transition_model_raises_iff (corpus : gmap string (gset string))
    (page : string) (damping_factor : Qc) :
  (page ∈ dom corpus →
   ∃ dist, transition_model corpus page damping_factor = Ok dist ∧
     dom dist = dom corpus) ∧
  (page ∉ dom corpus →
   transition_model corpus page damping_factor = Raise KeyError).
Proof.
  split.
  - intros [links Hpage]%elem_of_dom.
    destruct (decide (size links = 0%nat)).
    + destruct (transition_model_no_links corpus page links damping_factor)
        as (dist & Hrun & Hdist); [done..|].
      exists dist. split; [done|exact (dom_of_lookups _ _ _ Hdist)].
    + destruct (transition_model_links corpus page links damping_factor)
        as (dist & Hrun & Hdist); [done..|].
      exists dist. split; [done|exact (dom_of_lookups _ _ _ Hdist)].
  - intros Hpage%not_elem_of_dom. unfold transition_model.
    by rewrite (getitem_None_KeyError _ _ Hpage).
Qed.

Lemma div_nat_pos (a : Qc) (n : nat) :
  n ≠ 0%nat → 0 < a → 0 < a / Qc_of_nat n.
Proof.
  intros Hn Ha. apply Qcmult_pos_pos; [done|].
  by apply Qcinv_pos, Qc_of_nat_pos.
Qed.

(** X5: with a damping factor d such that 0 <= d < 1, the transition model
    gives every page of the corpus a positive probability, whatever the
    current page links to. *)
Theorem transition_model_positive (corpus : gmap string (gset string))
    (page : string) (damping_factor : Qc) :
  page ∈ dom corpus → 0 <= damping_factor → damping_factor < 1 →
  ∃ dist, transition_model corpus page damping_factor = Ok dist ∧
    ∀ p, p ∈ dom corpus → ∃ v, dist !! p = Some v ∧ 0 < v.
Proof.
  intros [links Hpage]%elem_of_dom Hd0 Hd1.
  assert (size corpus ≠ 0%nat) as HN.
  { apply map_size_non_empty_iff. by eapply nonempty_of_key. }
  assert (0 < (1 - damping_factor) / len corpus) as Hbase.
  { apply div_nat_pos; [done|].
    by apply (proj1 (Qclt_minus_iff damping_factor 1)). }
  destruct (decide (size links = 0%nat)) as [Hsize|Hsize].
  - destruct (transition_model_no_links corpus page links damping_factor)
      as (dist & Hrun & Hdist); [done..|].
    exists dist. split; [done|]. intros p Hp%elem_of_keys_dom.
    eexists. rewrite Hdist, decide_True by done. split; [done|].
    by apply div_nat_pos.
  - destruct (transition_model_links corpus page links damping_factor)
      as (dist & Hrun & Hdist); [done..|].
    exists dist. split; [done|]. intros p Hp%elem_of_keys_dom.
    eexists. rewrite Hdist, decide_True by done. split; [done|].
    unfold linked_probability. case_decide; [|done].
    apply Qcplus_pos_nonneg; [done|]. by apply div_nat_bounds.
Qed.

Lemma transition_model_positive_witness :
  ∃ dist, transition_model a_to_b "A" d85 = Ok dist ∧
    ∀ p, p ∈ dom a_to_b → ∃ v, dist !! p = Some v ∧ 0 < v.
Proof.
  apply (transition_model_positive a_to_b "A" d85).
  - apply (bool_decide_unpack _). vm_compute. exact I.
  - apply (bool_decide_unpack _). vm_compute. exact I.
  - apply (bool_decide_unpack _). vm_compute. exact I.
Defined.

(** ** The sampling estimator: the range of the ranks *)











(** ** The two estimator runs of [main] *)



Section main_properties.

Context (findall : string → list string) (g : rng).

(** X10: on a directory that lists no name ending in ".html", the corpus is
    empty and [main] fails with IndexError in the sampling estimator, which
    it runs first; the iterative estimator is never reached. *)
Theorem main_ranks_without_pages (directory : list (string * string))
    (fuel : nat) :
  (∀ f, f ∈ directory.*1 → endswith f ".html" = false) →
  crawl findall directory = Ok ∅ ∧
  main_ranks findall g fuel directory = Some (Raise IndexError).
Proof.
  intros Hnone.
  destruct (crawl_Ok findall directory) as (pages & Hrun & Hdom & _).
  assert (pages = ∅) as ->.
  { apply dom_empty_iff_L, set_eq. intros f.
    rewrite Hdom, crawl_extract_dom, dom_empty_L.
    split; [|by intros ?%not_elem_of_empty].
    intros [?%not_elem_of_empty|[Hhtml Hin]]; [done|].
    rewrite (Hnone f Hin) in Hhtml. done. }
  split; [done|]. unfold main_ranks.
  by rewrite Hrun, sample_pagerank_empty.
Qed.


End main_properties.

Lemma main_ranks_without_pages_witness :
  crawl words [("notes.txt", "1.html")] = Ok ∅ ∧
  main_ranks words sample_rng 0 [("notes.txt", "1.html")]
  = Some (Raise IndexError).
Proof.
  apply (main_ranks_without_pages words sample_rng [("notes.txt", "1.html")]).
  intros f Hf. apply list_elem_of_singleton in Hf as ->. reflexivity.
Defined.


(** ** The sampling estimator with a single sample *)

(** X12: with n = 1 the sampling estimator makes the uniform pick only: on
    every non-empty graph, whatever its links and the damping factor, it
    returns rank 1 for the picked page and rank 0 for every other page. *)
Theorem sample_pagerank_single_sample (g : rng)
    (corpus : gmap string (gset string)) (damping_factor : Qc) :
  corpus ≠ ∅ →
  ∃ cur g' ranks, choice g (keys corpus) = Ok (cur, g') ∧ cur ∈ dom corpus ∧
    sample_pagerank g corpus damping_factor 1 = Ok ranks ∧
    dom ranks = dom corpus ∧
    ∀ p, p ∈ dom corpus →
      ranks !! p = Some (if decide (p = cur) then 1 else 0).
Proof.
  intros Hne.
  destruct (dict_comp_pure (λ p, Ok 0%Z) (λ _, 0%Z) (keys corpus))
    as (d0 & Hd0 & Hl0); [done|].
  destruct (choice_Ok g (keys corpus)) as (cur & g' & Hpick & Hin);
    [by apply keys_nonempty|].
  assert (d0 !! cur = Some 0%Z) as Hcur by by rewrite Hl0, decide_True.
  set (counts := <[cur := (0 + 1)%Z]> d0).
  assert (sample_counts g corpus damping_factor 1 = Ok counts) as Hcounts.
  { unfold sample_counts. rewrite Hd0. simpl. rewrite Hpick. simpl.
    by rewrite (incr_Ok _ _ _ Hcur). }
  assert (dom counts = dom corpus) as Hdom.
  { unfold counts. rewrite dom_insert_lookup_L by done.
    exact (dom_of_lookups _ _ _ Hl0). }
  destruct (ranks_of_counts corpus counts 1) as (ranks & Hranks & Hlookup);
    [done..|].
  exists cur, g', ranks. split_and!; [done|by apply elem_of_keys_dom| | |].
  - unfold sample_pagerank. by rewrite Hcounts.
  - exact (dom_of_lookups _ _ _ Hlookup).
  - intros p Hp%elem_of_keys_dom. rewrite Hlookup, decide_True by done.
    f_equal. unfold count, counts.
    destruct (decide (p = cur)) as [->|Hne'].
    + rewrite lookup_insert_eq. simpl. apply Qc_is_canon. reflexivity.
    + rewrite lookup_insert_ne, Hl0, decide_True by done. simpl.
      apply Qc_is_canon. reflexivity.
Qed.

Lemma sample_pagerank_single_sample_witness :
  ∃ cur g' ranks, choice sample_rng (keys lone) = Ok (cur, g') ∧
    cur ∈ dom lone ∧
    sample_pagerank sample_rng lone d85 1 = Ok ranks ∧
    dom ranks = dom lone ∧
    ∀ p, p ∈ dom lone → ranks !! p = Some (if decide (p = cur) then 1 else 0).
Proof.
  apply (sample_pagerank_single_sample sample_rng lone d85).
  apply (bool_decide_unpack _). vm_compute. exact I.
Defined.

(** ** The iterative estimator on graphs that keep the uniform vector *)



